(** * A step-sequencer metronome: scheduler, playhead sync, tap tempo, grid

    Shallow embedding of the React component [MetronomeUI], which the
    repository carries in three revisions:

    - [src/unnamed/part_002] (module [Legacy]): no tap tempo and no
      refs; the scheduler closes over the React state [bpm],
      [beatsPerCycle] and [grid] and never looks at the playback state;
    - [src/app.js] (module [App]): the scheduler reads [bpmRef],
      [gridRef], [beatsRef] and [isPlayingRef];
    - [src/unnamed/part_001] (module [Ext]): as [src/app.js], with
      [subRef] (subdivisions per beat) and a noise-based renderer.

    What the revisions share word for word is defined once.

    Numbers.  A JavaScript number is an IEEE double.  Here a finite double
    is an exact rational ([Q], kept in lowest terms by every operation)
    and the three special values are kept ([Infinity], [-Infinity],
    [NaN]); rounding error and the sign of zero are not modelled.  The
    time stamps of [Date.now()] are integers ([Z]); the step index and
    the cycle length are integers too, with [NaN] for the step, which
    [x % 0] produces.

    Effects.  A scheduler call is a function of what it reads (the refs
    or the captured state, and the audio clock, which stands still within
    one call) and of the schedule cursor; it returns the new cursor and
    the renderer calls and timer registrations it made, in program order.
    [audioCtxRef.current] is taken to be set: [initAudio()] runs before
    the first scheduler call of every playback.  The [while] loop has no
    bound in the source, so its model takes fuel and returns [None] when
    the fuel runs out; the properties below give the fuel that suffices.
    A timer callback is data ([callback]) and [fire] runs it. *)

From Stdlib Require Import ZArith QArith Qround Lia Lqa List Bool Ascii String.
From stdpp Require Import gmap strings pretty.
Import ListNotations.

Local Open Scope Z_scope.

(** ** JavaScript numbers *)

Inductive num : Type :=
| Fin (q : Q)
| PInf
| NInf
| NaN.

Definition of_Z (z : Z) : num := Fin (inject_Z z).

Definition Qltb (x y : Q) : bool := negb (Qle_bool y x).

Module Num.

Definition neg (a : num) : num :=
  match a with
  | Fin x => Fin (- x)%Q
  | PInf => NInf
  | NInf => PInf
  | NaN => NaN
  end.

(** [a + b] *)
Definition add (a b : num) : num :=
  match a, b with
  | NaN, _ | _, NaN => NaN
  | Fin x, Fin y => Fin (Qred (x + y))
  | PInf, NInf | NInf, PInf => NaN
  | PInf, _ | _, PInf => PInf
  | NInf, _ | _, NInf => NInf
  end.

(** [a - b] *)
Definition sub (a b : num) : num := add a (neg b).

Definition sign_inf (positive_result : bool) : num :=
  if positive_result then PInf else NInf.

(** [a * b] *)
Definition mul (a b : num) : num :=
  match a, b with
  | NaN, _ | _, NaN => NaN
  | Fin x, Fin y => Fin (Qred (x * y))
  | Fin x, PInf | PInf, Fin x =>
      if Qeq_bool x 0 then NaN else sign_inf (Qltb 0 x)
  | Fin x, NInf | NInf, Fin x =>
      if Qeq_bool x 0 then NaN else sign_inf (Qltb x 0)
  | PInf, PInf | NInf, NInf => PInf
  | PInf, NInf | NInf, PInf => NInf
  end.

(** [a / b] *)
Definition div (a b : num) : num :=
  match a, b with
  | NaN, _ | _, NaN => NaN
  | Fin x, Fin y =>
      if Qeq_bool y 0
      then (if Qeq_bool x 0 then NaN else sign_inf (Qltb 0 x))
      else Fin (Qred (x / y))
  | Fin _, (PInf | NInf) => Fin 0
  | PInf, Fin y => sign_inf (Qle_bool 0 y)
  | NInf, Fin y => sign_inf (Qltb y 0)
  | (PInf | NInf), (PInf | NInf) => NaN
  end.

(** [a < b] *)
Definition lt (a b : num) : bool :=
  match a, b with
  | NaN, _ | _, NaN => false
  | Fin x, Fin y => Qltb x y
  | _, NInf => false
  | PInf, _ => false
  | NInf, _ => true
  | Fin _, PInf => true
  end.

(** [a > b] *)
Definition gt (a b : num) : bool := lt b a.

(** [isNaN(a)] on a number *)
Definition isNaN (a : num) : bool :=
  match a with NaN => true | _ => false end.

(** [Math.round(a)]: the nearest integer, halves towards [+Infinity]. *)
Definition round (a : num) : num :=
  match a with
  | Fin x => of_Z (Qfloor (x + (1 # 2)))
  | other => other
  end.

(** [Math.max(a, b)] *)
Definition max (a b : num) : num :=
  match a, b with
  | NaN, _ | _, NaN => NaN
  | _, _ => if lt a b then b else a
  end.

(** [Math.min(a, b)] *)
Definition min (a b : num) : num :=
  match a, b with
  | NaN, _ | _, NaN => NaN
  | _, _ => if lt b a then b else a
  end.

End Num.

(** A number that is an integer within the tempo range. *)
Definition int_between (lo hi : Z) (a : num) : Prop :=
  exists z : Z, a = of_Z z /\ lo <= z <= hi.

(** ** Data model *)

Definition MIN_BPM : Z := 30.
Definition MAX_BPM : Z := 250.

(** The tempo state holds a number or the empty string that
    [handleBpmChange] stores while the entry box is empty. *)
Inductive bpmval : Type :=
| BEmpty
| BNum (n : num).

(** [ToNumber]: the empty string converts to [0]. *)
Definition to_number (v : bpmval) : num :=
  match v with
  | BEmpty => of_Z 0
  | BNum n => n
  end.

(** The step index: an integer, or [NaN] once the cycle length was [0]. *)
Inductive stepv : Type :=
| Step (z : Z)
| StepNaN.

(** [(s + 1) % beats]: the remainder takes the sign of the dividend. *)
Definition step_next (s : stepv) (beats : Z) : stepv :=
  match s with
  | Step z => if beats =? 0 then StepNaN else Step (Z.rem (z + 1) beats)
  | StepNaN => StepNaN
  end.

(** [`${s}`]: decimal digits for an integer (below 10^21 in magnitude,
    where JavaScript switches to exponent notation). *)
Definition step_string (s : stepv) : string :=
  match s with
  | Step z => pretty z
  | StepNaN => "NaN"
  end.

Inductive voice : Type := kick | snare | hat.

(** The grid is a JavaScript object from keys [`${row}-${col}`] to
    booleans; a missing key reads [undefined], which is falsy. *)
Definition grid_key (row : string) (col : stepv) : string :=
  row +:+ "-" +:+ step_string col.

Definition active (g : gmap string bool) (key : string) : bool :=
  default false (g !! key).

(** The row names the component uses for the three voices. *)
Definition row_of (v : voice) : string :=
  match v with
  | hat => "high"
  | snare => "mid"
  | kick => "low"
  end.

(** React state of the component. *)
Record ui : Type := mk_ui {
  bpm : bpmval;
  beatsPerCycle : Z;
  subdivision : Z;
  grid : gmap string bool;
  isPlaying : bool;
  currentStep : stepv;
  tapTimes : list Z
}.

Definition setBpm (v : bpmval) (u : ui) : ui :=
  mk_ui v (beatsPerCycle u) (subdivision u) (grid u) (isPlaying u)
        (currentStep u) (tapTimes u).

Definition setGrid (g : gmap string bool) (u : ui) : ui :=
  mk_ui (bpm u) (beatsPerCycle u) (subdivision u) g (isPlaying u)
        (currentStep u) (tapTimes u).

Definition setCurrentStep (s : stepv) (u : ui) : ui :=
  mk_ui (bpm u) (beatsPerCycle u) (subdivision u) (grid u) (isPlaying u)
        s (tapTimes u).

Definition setIsPlaying (p : bool) (u : ui) : ui :=
  mk_ui (bpm u) (beatsPerCycle u) (subdivision u) (grid u) p
        (currentStep u) (tapTimes u).

Definition setTapTimes (l : list Z) (u : ui) : ui :=
  mk_ui (bpm u) (beatsPerCycle u) (subdivision u) (grid u) (isPlaying u)
        (currentStep u) l.

(** The state on first render with [DEFAULT_PRESET]. *)
Definition initial_ui : ui :=
  mk_ui (BNum (of_Z 120)) 4 1
        {[ "high-0" := true; "low-0" := true; "mid-2" := true ]}
        false (Step (-1)) [].

(** The refs the scheduler reads; the [useEffect] hooks copy the state
    into them after every render that changed it.  [subRef] exists in
    the last revision only. *)
Record refs : Type := mk_refs {
  bpmRef : bpmval;
  gridRef : gmap string bool;
  beatsRef : Z;
  subRef : Z;
  isPlayingRef : bool
}.

Definition sync_refs (u : ui) : refs :=
  mk_refs (bpm u) (grid u) (beatsPerCycle u) (subdivision u) (isPlaying u).

(** The schedule cursor: [nextNoteTimeRef.current] and [stepRef.current]. *)
Record cursor : Type := mk_cursor {
  nextNoteTime : num;
  step : stepv
}.

(** Callbacks handed to [setTimeout]. *)
Inductive callback : Type :=
| CbScheduler
| CbShowStepIfPlaying (s : stepv)
| CbShowStep (s : stepv).

(** What a call does to the outside, in program order: renderer calls,
    timer registrations (delay in milliseconds) and
    [clearTimeout(timerIDRef.current)], which cancels the pending
    scheduler timer and no other. *)
Inductive event : Type :=
| PlaySound (type : voice) (time : num)
| SetTimeout (cb : callback) (delay : num)
| ClearTimeout.

(** ** Tap tempo ([handleTap], the same in [src/app.js] and
    [src/unnamed/part_001]) *)

(** [intervals.push(newTaps[i + 1] - newTaps[i])] for [i] from [0] to
    [newTaps.length - 2]. *)
Fixpoint intervals_of (taps : list Z) : list Z :=
  match taps with
  | a :: (b :: _) as rest => (b - a) :: intervals_of rest
  | _ => []
  end.

Definition clampBpm (n : num) : num :=
  Num.min (Num.max n (of_Z MIN_BPM)) (of_Z MAX_BPM).

Definition tapBpm (newTaps : list Z) : num :=
  let intervals := intervals_of newTaps in
  let avgInterval :=
    Num.div (of_Z (fold_left Z.add intervals 0))
            (of_Z (Z.of_nat (length intervals))) in
  let newBpm := Num.round (Num.div (of_Z 60000) avgInterval) in
  clampBpm newBpm.

Definition handleTap (now : Z) (u : ui) : ui :=
  let prev := tapTimes u in
  if (0 <? Z.of_nat (length prev)) && (3000 <? now - List.last prev 0) then
    setTapTimes [now] u
  else
    let pushed := prev ++ [now] in
    let newTaps := if 5 <? Z.of_nat (length pushed) then List.tl pushed else pushed in
    let u' := if 5 <=? Z.of_nat (length newTaps)
              then setBpm (BNum (tapBpm newTaps)) u
              else u in
    setTapTimes newTaps u'.

(** ** Scheduler *)

Definition scheduleAheadTime : num := Fin (1 # 10).
Definition lookahead : num := of_Z 25.

(** [if (grid[`${row}-${stepNumber}`]) playSound(type, time)] *)
Definition play_if_active (g : gmap string bool) (v : voice)
    (stepNumber : stepv) (time : num) : list event :=
  if active g (grid_key (row_of v) stepNumber) then [PlaySound v time] else [].

(** [setTimeout(cb, Math.max(0, (time - currentTime) * 1000))] *)
Definition visual_timeout (cb : callback) (now time : num) : event :=
  let visualDelay := Num.mul (Num.sub time now) (of_Z 1000) in
  SetTimeout cb (Num.max (of_Z 0) visualDelay).

(** [scheduleNote] of [src/app.js] and [src/unnamed/part_001]; [now] is
    [audioCtxRef.current.currentTime]. *)
Definition scheduleNote (r : refs) (now : num) (stepNumber : stepv)
    (time : num) : list event :=
  let currentGrid := gridRef r in
  play_if_active currentGrid hat stepNumber time ++
  play_if_active currentGrid snare stepNumber time ++
  play_if_active currentGrid kick stepNumber time ++
  [visual_timeout (CbShowStepIfPlaying stepNumber) now time].

(** A timer callback of [scheduleNote] fires: [playing] is
    [isPlayingRef.current] at that moment. *)
Definition fire (cb : callback) (playing : bool) (u : ui) : ui :=
  match cb with
  | CbShowStepIfPlaying s => if playing then setCurrentStep s u else u
  | CbShowStep s => setCurrentStep s u
  | CbScheduler => u
  end.

(** The [while] loop the three schedulers share.  It returns the cursor
    it stops at and the onsets it passed to [scheduleNote], oldest
    first; [None] when [fuel] iterations did not reach the exit. *)
Section Loop.
Variables (now secondsPerStep : num) (beats : Z).

Definition advance (c : cursor) : cursor :=
  {| nextNoteTime := Num.add (nextNoteTime c) secondsPerStep;
     step := step_next (step c) beats |}.

Definition due (c : cursor) : bool :=
  Num.lt (nextNoteTime c) (Num.add now scheduleAheadTime).

Fixpoint while_due (fuel : nat) (c : cursor) : option (cursor * list cursor) :=
  match fuel with
  | O => None
  | S fuel' =>
      if due c then
        match while_due fuel' (advance c) with
        | Some (c', onsets) => Some (c', c :: onsets)
        | None => None
        end
      else Some (c, [])
  end.
End Loop.

Definition notes (note : stepv -> num -> list event) (onsets : list cursor)
    : list event :=
  flat_map (fun o => note (step o) (nextNoteTime o)) onsets.

(** The [useEffect] on [isPlaying], start branch: [stepRef.current = 0;
    setCurrentStep(0); nextNoteTimeRef.current = currentTime], after
    which it calls [scheduler()]. *)
Definition start_cursor (now : num) : cursor :=
  {| nextNoteTime := now; step := Step 0 |}.

(** Stop branch: [clearTimeout(timerIDRef.current); setCurrentStep(-1)]. *)
Definition stop_effect (u : ui) : ui * list event :=
  (setCurrentStep (Step (-1)) u, [ClearTimeout]).

(** Successive scheduler calls, one per clock reading. *)
Section Run.
Variable tick : nat -> num -> cursor -> option (cursor * list event).

Fixpoint run_ticks (fuel : nat) (nows : list num) (c : cursor)
    : option (cursor * list event) :=
  match nows with
  | [] => Some (c, [])
  | now :: rest =>
      match tick fuel now c with
      | Some (c1, ev1) =>
          match run_ticks fuel rest c1 with
          | Some (c2, ev2) => Some (c2, ev1 ++ ev2)
          | None => None
          end
      | None => None
      end
  end.
End Run.

(** The step index a [scheduleNote] call was made with, read off the
    timer it registers. *)
Definition shown_step (e : event) : option stepv :=
  match e with
  | SetTimeout (CbShowStepIfPlaying s) _ => Some s
  | SetTimeout (CbShowStep s) _ => Some s
  | _ => None
  end.

Definition emitted_steps (evs : list event) : list stepv := omap shown_step evs.

Definition sounds (evs : list event) : list (voice * num) :=
  omap (fun e => match e with PlaySound v t => Some (v, t) | _ => None end) evs.

(** ** Grid editing ([toggleGridParams], the same in the three revisions) *)

Definition toggleGridParams (row : string) (col : Z) (u : ui) : ui :=
  let key := grid_key row (Step col) in
  setGrid (<[key := negb (active (grid u) key)]> (grid u)) u.

(** ** Tempo entry *)

(** [parseInt(s)] without a radix: leading (ASCII) white space, an
    optional sign, an optional [0x] prefix, then the longest run of
    digits; [None] stands for [NaN]. *)
Definition is_space (a : ascii) : bool :=
  let n := Z.of_nat (nat_of_ascii a) in
  ((9 <=? n) && (n <=? 13)) || (n =? 32).

Fixpoint skip_spaces (s : string) : string :=
  match s with
  | String a rest => if is_space a then skip_spaces rest else s
  | EmptyString => s
  end.

Definition digit_value (a : ascii) : option Z :=
  let n := Z.of_nat (nat_of_ascii a) in
  if (48 <=? n) && (n <=? 57) then Some (n - 48)
  else if (97 <=? n) && (n <=? 122) then Some (n - 87)
  else if (65 <=? n) && (n <=? 90) then Some (n - 55)
  else None.

Fixpoint parse_digits (radix : Z) (s : string) (acc : option Z) : option Z :=
  match s with
  | String a rest =>
      match digit_value a with
      | Some d =>
          if d <? radix
          then parse_digits radix rest (Some (radix * default 0 acc + d))
          else acc
      | None => acc
      end
  | EmptyString => acc
  end.

Definition parseInt (s : string) : option Z :=
  let s1 := skip_spaces s in
  let '(sign, s2) :=
    match s1 with
    | String "-" rest => (-1, rest)
    | String "+" rest => (1, rest)
    | _ => (1, s1)
    end in
  let '(radix, s3) :=
    match s2 with
    | String "0" (String "x" rest) => (16, rest)
    | String "0" (String "X" rest) => (16, rest)
    | _ => (10, s2)
    end in
  option_map (Z.mul sign) (parse_digits radix s3 None).

Definition is_empty (v : bpmval) : bool :=
  match v with BEmpty => true | BNum _ => false end.

(** [handleBpmBlur], the same in the three revisions:
    [if (bpm === '' || isNaN(bpm) || bpm < MIN_BPM) setBpm(MIN_BPM)]. *)
Definition handleBpmBlur (u : ui) : ui :=
  let val := bpm u in
  if is_empty val || Num.isNaN (to_number val)
     || Num.lt (to_number val) (of_Z MIN_BPM)
  then setBpm (BNum (of_Z MIN_BPM)) u
  else u.

(** [(deltaX - deltaY) * sensitivity] from the pointer position and
    [lastMousePos.current]. *)
Definition pointer_change (last : num * num) (clientX clientY : num) : num :=
  let deltaX := Num.sub clientX (fst last) in
  let deltaY := Num.sub clientY (snd last) in
  Num.mul (Num.sub deltaX deltaY) (Fin (1 # 2)).

Definition dial_start (prev : bpmval) : num :=
  if is_empty prev || Num.isNaN (to_number prev)
  then of_Z MIN_BPM
  else to_number prev.

(** ** The three revisions *)

(** [src/unnamed/part_002]: [scheduler] and [scheduleNote] read the
    state [u] their closure captured. *)
Module Legacy.

Definition scheduleNote (u : ui) (now : num) (stepNumber : stepv)
    (time : num) : list event :=
  play_if_active (grid u) hat stepNumber time ++
  play_if_active (grid u) snare stepNumber time ++
  play_if_active (grid u) kick stepNumber time ++
  [visual_timeout (CbShowStep stepNumber) now time].

Definition secondsPerBeat (u : ui) : num :=
  Num.div (of_Z 60) (to_number (bpm u)).

Definition scheduler (u : ui) (fuel : nat) (now : num) (c : cursor)
    : option (cursor * list event) :=
  match while_due now (secondsPerBeat u) (beatsPerCycle u) fuel c with
  | Some (c', onsets) =>
      Some (c', notes (scheduleNote u now) onsets
                ++ [SetTimeout CbScheduler lookahead])
  | None => None
  end.

End Legacy.

(** [src/app.js] *)
Module App.

Definition secondsPerBeat (r : refs) : num :=
  Num.div (of_Z 60) (to_number (bpmRef r)).

Definition scheduler (r : refs) (fuel : nat) (now : num) (c : cursor)
    : option (cursor * list event) :=
  if isPlayingRef r then
    match while_due now (secondsPerBeat r) (beatsRef r) fuel c with
    | Some (c', onsets) =>
        Some (c', notes (scheduleNote r now) onsets
                  ++ [SetTimeout CbScheduler lookahead])
    | None => None
    end
  else Some (c, []).

(** [handleBpmChange] of [src/app.js] and [src/unnamed/part_002];
    [valStr] is [e.target.value]. *)
Definition handleBpmChange (valStr : string) (u : ui) : ui :=
  if String.eqb valStr "" then setBpm BEmpty u
  else
    match parseInt valStr with
    | None => u
    | Some val =>
        let val' := if MAX_BPM <? val then MAX_BPM else val in
        setBpm (BNum (of_Z val')) u
    end.

(** [updateBpmFromDelta] of [src/app.js] and [src/unnamed/part_002];
    the state update only. *)
Definition updateBpmFromDelta (last : num * num) (clientX clientY : num)
    (u : ui) : ui :=
  let change := pointer_change last clientX clientY in
  let currentVal := dial_start (bpm u) in
  let newVal := Num.add currentVal change in
  let newVal1 := if Num.lt newVal (of_Z MIN_BPM) then of_Z MIN_BPM else newVal in
  let newVal2 := if Num.gt newVal1 (of_Z MAX_BPM) then of_Z MAX_BPM else newVal1 in
  setBpm (BNum (Num.round newVal2)) u.

End App.

(** [src/unnamed/part_001] *)
Module Ext.

Definition secondsPerStep (r : refs) : num :=
  let secondsPerBeat := Num.div (of_Z 60) (to_number (bpmRef r)) in
  Num.div secondsPerBeat (of_Z (subRef r)).

Definition scheduler (r : refs) (fuel : nat) (now : num) (c : cursor)
    : option (cursor * list event) :=
  if isPlayingRef r then
    match while_due now (secondsPerStep r) (beatsRef r) fuel c with
    | Some (c', onsets) =>
        Some (c', notes (scheduleNote r now) onsets
                  ++ [SetTimeout CbScheduler lookahead])
    | None => None
    end
  else Some (c, []).

(** [handleBpmChange] of [src/unnamed/part_001]. *)
Definition handleBpmChange (value : string) (u : ui) : ui :=
  match parseInt value with
  | Some v => setBpm (BNum (Num.min (of_Z v) (of_Z MAX_BPM))) u
  | None => if String.eqb value "" then setBpm BEmpty u else u
  end.

(** [updateBpmFromDelta] of [src/unnamed/part_001]. *)
Definition updateBpmFromDelta (last : num * num) (clientX clientY : num)
    (u : ui) : ui :=
  let c := dial_start (bpm u) in
  let n := Num.add c (pointer_change last clientX clientY) in
  setBpm (BNum (Num.round (clampBpm n))) u.

End Ext.

(** * Vocabulary of the properties *)

(** The window is non-empty and the gap since its last entry exceeds
    three seconds. *)
Definition timed_out (now : Z) (prev : list Z) : Prop :=
  exists init lastTap, prev = init ++ [lastTap] /\ 3000 < now - lastTap.

(** The window after a tap that did not time out. *)
Definition slide (prev : list Z) (now : Z) : list Z :=
  if 5 <? Z.of_nat (length (prev ++ [now])) then List.tl (prev ++ [now])
  else prev ++ [now].

(** A sequence of taps, oldest first. *)
Definition taps (nows : list Z) (u : ui) : ui :=
  fold_left (fun acc now => handleTap now acc) nows u.

(** The tempo the specification names for a full window: 60000 over the
    mean of the four intervals, rounded to the nearest integer and
    clamped, in exact rational arithmetic. *)
Definition round_half_up (x : Q) : Z := Qfloor (x + (1 # 2)).

Definition clamp_tempo (z : Z) : Z := Z.min MAX_BPM (Z.max z MIN_BPM).

Definition spec_tap_tempo (i1 i2 i3 i4 : Z) : Z :=
  clamp_tempo (round_half_up (60000 / (inject_Z (i1 + i2 + i3 + i4) / 4))).

(** The cell of a voice at a column. *)
Definition cell (v : voice) (col : Z) : string := grid_key (row_of v) (Step col).

Definition voices_in_order : list voice := [hat; snare; kick].

(** The state [src/unnamed/part_002] is in after playback was started
    and stopped again: the audio clock runs, [isPlaying] is false. *)
Definition stopped_ui : ui := fst (stop_effect (setIsPlaying false initial_ui)).

(** A tempo value that is an integer within [MIN_BPM, MAX_BPM]. *)
Definition tempo_in_range (v : bpmval) : Prop :=
  exists n, v = BNum n /\ int_between MIN_BPM MAX_BPM n.

(** What the entry box can leave in the state: the empty string or an
    integer bounded from above only. *)
Definition entry_value (v : bpmval) : Prop :=
  v = BEmpty \/ exists z, v = BNum (of_Z z) /\ z <= MAX_BPM.

(** What the specification says of the cursor: the [k]-th onset of a
    call lies [k] steps after the first, and the step index goes up by
    one modulo the cycle length each time. *)
Definition onset_time (q sps : Q) (k : nat) : Q :=
  q + inject_Z (Z.of_nat k) * sps.

Definition step_seq (n z : Z) (k : nat) : Z :=
  Nat.iter k (fun s => (s + 1) mod n) z.

(** A cursor at step [z] whose time is the rational [t]. *)
Definition cursor_is (c : cursor) (t : Q) (z : Z) : Prop :=
  exists q, c = mk_cursor (Fin q) (Step z) /\ q == t.

(** What one run of the loop does from the finite cursor [(q, z)], the
    loop adding [sps'] each time, a rational equal to [sps]. *)
Definition loop_spec (now sps' sps : Q) (n : Z) (q : Q) (z : Z) (m : nat)
    (onsets : list cursor) (c' : cursor) : Prop :=
  (forall fuel, (m < fuel)%nat ->
     while_due (Fin now) (Fin sps') n fuel (mk_cursor (Fin q) (Step z))
       = Some (c', onsets)) /\
  length onsets = m /\
  (forall k o, onsets !! k = Some o ->
     cursor_is o (onset_time q sps k) (step_seq n z k)) /\
  cursor_is c' (onset_time q sps m) (step_seq n z m) /\
  (forall k, (k < m)%nat <-> (onset_time q sps k < now + (1 # 10))%Q).

(** A scheduler call at clock [now] from the cursor [(q, z)]: with enough
    fuel it returns; it passes [m] onsets to [scheduleNote] and then
    re-arms itself; onset [k] is at [q + k * sps] with step
    [step_seq n z k]; the cursor it leaves is onset [m]; and the onsets
    passed are those of the sequence that lie before [now + 0.1]. *)
Definition tick_spec
    (tick : nat -> num -> cursor -> option (cursor * list event))
    (note : num -> stepv -> num -> list event)
    (sps : Q) (n : Z) (now q : Q) (z : Z) : Prop :=
  exists (m : nat) (onsets : list cursor) (c' : cursor),
    (forall fuel, (m < fuel)%nat ->
       tick fuel (Fin now) (mk_cursor (Fin q) (Step z)) =
         Some (c', notes (note (Fin now)) onsets
                   ++ [SetTimeout CbScheduler lookahead])) /\
    length onsets = m /\
    (forall k o, onsets !! k = Some o ->
       cursor_is o (onset_time q sps k) (step_seq n z k)) /\
    cursor_is c' (onset_time q sps m) (step_seq n z m) /\
    (forall k, (k < m)%nat <-> (onset_time q sps k < now + (1 # 10))%Q).

(** [len] step indices from [z] on. *)
Definition cycle_from (n z : Z) (len : nat) : list stepv :=
  map (fun k => Step (step_seq n z k)) (seq 0 len).

(** The scheduler of each revision, on a component state. *)
Inductive revision : Type := Rev_legacy | Rev_app | Rev_ext.

Definition scheduler_of (v : revision) (u : ui)
    : nat -> num -> cursor -> option (cursor * list event) :=
  match v with
  | Rev_legacy => Legacy.scheduler u
  | Rev_app => App.scheduler (sync_refs u)
  | Rev_ext => Ext.scheduler (sync_refs u)
  end.

(** * The rest of the component *)

(** ** Meter *)

Definition setBeatsPerCycle (n : Z) (u : ui) : ui :=
  mk_ui (bpm u) n (subdivision u) (grid u) (isPlaying u)
        (currentStep u) (tapTimes u).

Definition setSubdivision (n : Z) (u : ui) : ui :=
  mk_ui (bpm u) (beatsPerCycle u) n (grid u) (isPlaying u)
        (currentStep u) (tapTimes u).

(** The spin buttons of the cycle length, in the three revisions:
    [setBeatsPerCycle(prev => Math.min(prev + 1, 16))] and
    [setBeatsPerCycle(prev => Math.max(prev - 1, 1))]. *)
Definition beatsUp (u : ui) : ui :=
  setBeatsPerCycle (Z.min (beatsPerCycle u + 1) 16) u.

Definition beatsDown (u : ui) : ui :=
  setBeatsPerCycle (Z.max (beatsPerCycle u - 1) 1) u.

(** The spin buttons of the subdivision, in [src/unnamed/part_001]:
    [setSubdivision(prev => Math.min(prev + 1, 8))] and
    [setSubdivision(prev => Math.max(prev - 1, 1))]. *)
Definition subdivisionUp (u : ui) : ui :=
  setSubdivision (Z.min (subdivision u + 1) 8) u.

Definition subdivisionDown (u : ui) : ui :=
  setSubdivision (Z.max (subdivision u - 1) 1) u.

Inductive spin : Type := BeatsUp | BeatsDown | SubdivisionUp | SubdivisionDown.

Definition press (b : spin) (u : ui) : ui :=
  match b with
  | BeatsUp => beatsUp u
  | BeatsDown => beatsDown u
  | SubdivisionUp => subdivisionUp u
  | SubdivisionDown => subdivisionDown u
  end.

(** ** Dial angle *)

(** [getRotation], the same computation in the three revisions. *)
Definition getRotation (u : ui) : num :=
  let currentBpm := dial_start (bpm u) in
  let safeBpm := clampBpm currentBpm in
  let percent :=
    Num.div (Num.sub safeBpm (of_Z MIN_BPM))
            (Num.sub (of_Z MAX_BPM) (of_Z MIN_BPM)) in
  Num.add (of_Z (-150)) (Num.mul percent (of_Z 300)).

(** ** Presets *)

(** A preset object; [p_subdivision] is [None] where the field is
    missing (every preset of [src/app.js] and [src/unnamed/part_002]). *)
Record preset : Type := mk_preset {
  p_id : string;
  p_name : string;
  p_bpm : bpmval;
  p_beatsPerCycle : Z;
  p_subdivision : option Z;
  p_grid : gmap string bool
}.

(** The states [presets] and [selectedPresetId]. *)
Record library : Type := mk_library {
  presets : list preset;
  selectedPresetId : string
}.

Definition DEFAULT_PRESET : preset :=
  mk_preset "default" "Default (4/4)" (BNum (of_Z 120)) 4 (Some 1)
            {[ "high-0" := true; "low-0" := true; "mid-2" := true ]}.

(** [presets.find(p => p.id === id)] *)
Definition find_preset (id : string) (l : list preset) : option preset :=
  List.find (fun p => String.eqb (p_id p) id) l.

(** [preset.subdivision || 1]: a missing field and [0] both give [1]. *)
Definition subdivision_or_1 (s : option Z) : Z :=
  match s with
  | Some z => if z =? 0 then 1 else z
  | None => 1
  end.

(** [src/app.js] and [src/unnamed/part_002] *)
Module AppPresets.

(** [handlePresetChange]; [id] is [e.target.value]. *)
Definition handlePresetChange (id : string) (st : library * ui) : library * ui :=
  match find_preset id (presets (fst st)) with
  | Some preset =>
      (mk_library (presets (fst st)) id,
       setIsPlaying false
         (setGrid (p_grid preset)
            (setBeatsPerCycle (p_beatsPerCycle preset)
               (setBpm (p_bpm preset) (snd st)))))
  | None => st
  end.

(** [handleSavePreset]; [name] is what [prompt] returned ([null] and the
    empty string are both falsy) and [stamp] is [Date.now()]. *)
Definition handleSavePreset (name : string) (stamp : Z) (st : library * ui)
    : library * ui :=
  if String.eqb name "" then st
  else
    let u := snd st in
    let newPreset :=
      mk_preset (pretty stamp) name (bpm u) (beatsPerCycle u) None (grid u) in
    (mk_library (presets (fst st) ++ [newPreset]) (p_id newPreset), u).

(** [handleDeletePreset]; [confirmed] is what [confirm] returned.  [None]
    is the [TypeError] of [next.id] when [newPresets] is empty. *)
Definition handleDeletePreset (confirmed : bool) (st : library * ui)
    : option (library * ui) :=
  if (Z.of_nat (length (presets (fst st))) <=? 1) then Some st
  else if confirmed then
    let newPresets :=
      List.filter (fun p => negb (String.eqb (p_id p) (selectedPresetId (fst st))))
                  (presets (fst st)) in
    match newPresets with
    | next :: _ =>
        Some (mk_library newPresets (p_id next),
              setGrid (p_grid next)
                (setBeatsPerCycle (p_beatsPerCycle next)
                   (setBpm (p_bpm next) (snd st))))
    | [] => None
    end
  else Some st.

End AppPresets.

(** [src/unnamed/part_001] *)
Module ExtPresets.

Definition handlePresetChange (id : string) (st : library * ui) : library * ui :=
  match find_preset id (presets (fst st)) with
  | Some preset =>
      (mk_library (presets (fst st)) id,
       setIsPlaying false
         (setGrid (p_grid preset)
            (setSubdivision (subdivision_or_1 (p_subdivision preset))
               (setBeatsPerCycle (p_beatsPerCycle preset)
                  (setBpm (p_bpm preset) (snd st))))))
  | None => st
  end.

Definition handleSavePreset (name : string) (stamp : Z) (st : library * ui)
    : library * ui :=
  if String.eqb name "" then st
  else
    let u := snd st in
    let newPreset :=
      mk_preset (pretty stamp) name (bpm u) (beatsPerCycle u)
                (Some (subdivision u)) (grid u) in
    (mk_library (presets (fst st) ++ [newPreset]) (p_id newPreset), u).

Definition handleDeletePreset (confirmed : bool) (st : library * ui)
    : option (library * ui) :=
  if (Z.of_nat (length (presets (fst st))) <=? 1) then Some st
  else if confirmed then
    let newPresets :=
      List.filter (fun p => negb (String.eqb (p_id p) (selectedPresetId (fst st))))
                  (presets (fst st)) in
    match newPresets with
    | next :: _ =>
        Some (mk_library newPresets (p_id next),
              setGrid (p_grid next)
                (setSubdivision (subdivision_or_1 (p_subdivision next))
                   (setBeatsPerCycle (p_beatsPerCycle next)
                      (setBpm (p_bpm next) (snd st)))))
    | [] => None
    end
  else Some st.

End ExtPresets.

(** * Vocabulary of the further properties *)

(** The state with every time stamp of the tap window moved by [d]. *)
Definition shift_taps (d : Z) (u : ui) : ui :=
  setTapTimes (map (Z.add d) (tapTimes u)) u.

(** An event of a scheduler call at clock [now] that is in time: a
    renderer call for a time from [now] up to the horizon, a step timer
    of less than 100 ms, or the re-arming timer. *)
Definition on_time (now : Q) (e : event) : Prop :=
  match e with
  | PlaySound _ (Fin t) => (now <= t < now + (1 # 10))%Q
  | SetTimeout CbScheduler d => d = lookahead
  | SetTimeout _ (Fin d) => (0 <= d < 100)%Q
  | _ => False
  end.

(** The seconds per step a revision computes at tempo [b]. *)
Definition seconds_per_step (v : revision) (u : ui) (b : Q) : Q :=
  match v with
  | Rev_ext => 60 / b / inject_Z (subdivision u)
  | _ => 60 / b
  end.

(** The [scheduleNote] of a revision, reading the state [u]. *)
Definition note_of (v : revision) (u : ui) : num -> stepv -> num -> list event :=
  match v with
  | Rev_legacy => Legacy.scheduleNote u
  | _ => scheduleNote (sync_refs u)
  end.

(** The renderer calls an onset makes on grid [g]. *)
Definition rendered (g : gmap string bool) (o : cursor) : list (voice * num) :=
  map (fun v => (v, nextNoteTime o))
      (List.filter (fun v => active g (grid_key (row_of v) (step o)))
                   voices_in_order).

(** A string of decimal digits. *)
Definition is_digit (a : ascii) : bool :=
  let n := Z.of_nat (nat_of_ascii a) in (48 <=? n) && (n <=? 57).

Fixpoint digits_only (s : string) : bool :=
  match s with
  | String a rest => is_digit a && digits_only rest
  | EmptyString => true
  end.

(** The tempo, meter, grid and playback state a loaded preset leaves, in
    [src/app.js]; [ext] adds the subdivision of [src/unnamed/part_001]. *)
Definition loaded (p : preset) (u : ui) : Prop :=
  bpm u = p_bpm p /\ beatsPerCycle u = p_beatsPerCycle p /\ grid u = p_grid p.

Definition loaded_ext (p : preset) (u : ui) : Prop :=
  loaded p u /\ subdivision u = subdivision_or_1 (p_subdivision p).

(** * Properties *)

(** ** Numbers *)

Lemma Qltb_lt (x y : Q) : Qltb x y = true <-> (x < y)%Q.
Proof.
  unfold Qltb. rewrite negb_true_iff.
  destruct (Qle_bool y x) eqn:E.
  - apply Qle_bool_iff in E. split; [discriminate | intros H; exfalso; lra].
  - split; [intros _ | reflexivity].
    destruct (Qlt_le_dec x y) as [H | H]; [exact H |].
    apply Qle_bool_iff in H. congruence.
Qed.

Lemma Qltb_ge (x y : Q) : Qltb x y = false <-> (y <= x)%Q.
Proof.
  unfold Qltb. rewrite negb_false_iff. apply Qle_bool_iff.
Qed.

Lemma Qltb_Z (a b : Z) : Qltb (inject_Z a) (inject_Z b) = (a <? b).
Proof.
  destruct (a <? b) eqn:E.
  - apply Qltb_lt. rewrite <- Zlt_Qlt. lia.
  - apply Qltb_ge. rewrite <- Zle_Qle. lia.
Qed.

Lemma lt_of_Z (a b : Z) : Num.lt (of_Z a) (of_Z b) = (a <? b).
Proof. apply Qltb_Z. Qed.

Lemma round_of_Z (z : Z) : Num.round (of_Z z) = of_Z z.
Proof.
  unfold Num.round, of_Z. do 2 f_equal.
  unfold Qfloor, inject_Z, Qplus, Qnum, Qden.
  change (Z.pos (1 * 2)) with 2.
  replace (z * 2 + 1 * 1) with (1 + z * 2) by lia.
  rewrite Z.div_add by lia. reflexivity.
Qed.

(** Clamping an integer gives the clamped integer. *)
Lemma clampBpm_of_Z (z : Z) :
  clampBpm (of_Z z) = of_Z (Z.min MAX_BPM (Z.max z MIN_BPM)).
Proof.
  unfold clampBpm, Num.max. cbn [of_Z]. fold (of_Z z) (of_Z MIN_BPM).
  rewrite lt_of_Z. unfold MIN_BPM, MAX_BPM.
  destruct (z <? 30) eqn:E1; unfold Num.min; cbn [of_Z];
    [ fold (of_Z 30) | fold (of_Z z) ]; fold (of_Z 250); rewrite lt_of_Z.
  - replace (Z.max z 30) with 30 by lia. reflexivity.
  - destruct (250 <? z) eqn:E2; f_equal; lia.
Qed.

Lemma clampBpm_range (z : Z) : int_between MIN_BPM MAX_BPM (clampBpm (of_Z z)).
Proof.
  rewrite clampBpm_of_Z. eexists; split; [reflexivity |].
  unfold MIN_BPM, MAX_BPM. lia.
Qed.

Lemma clampBpm_PInf : clampBpm PInf = of_Z MAX_BPM.
Proof. reflexivity. Qed.

Lemma clampBpm_NInf : clampBpm NInf = of_Z MIN_BPM.
Proof. reflexivity. Qed.

(** Rounding and clamping anything but [NaN] lands in the tempo range. *)
Lemma round_clamp_range (a : num) :
  a <> NaN -> int_between MIN_BPM MAX_BPM (clampBpm (Num.round a)).
Proof.
  destruct a as [q | | |]; intros Ha.
  - apply clampBpm_range.
  - exists MAX_BPM. split; [reflexivity | unfold MIN_BPM, MAX_BPM; lia].
  - exists MIN_BPM. split; [reflexivity | unfold MIN_BPM, MAX_BPM; lia].
  - congruence.
Qed.

(** ** Tap tempo *)

Lemma timed_out_test (now : Z) (prev : list Z) :
  (0 <? Z.of_nat (length prev)) && (3000 <? now - List.last prev 0) = true
  <-> timed_out now prev.
Proof.
  rewrite andb_true_iff, !Z.ltb_lt. split.
  - intros [Hlen Hgap].
    destruct (exists_last (l := prev)) as (init & a & ->).
    { destruct prev; [cbn in Hlen; lia | discriminate]. }
    rewrite last_last in Hgap. exists init, a. split; [reflexivity | exact Hgap].
  - intros (init & a & -> & Hgap).
    rewrite last_last, length_app. cbn. lia.
Qed.

Lemma handleTap_timed_out (now : Z) (u : ui) :
  timed_out now (tapTimes u) -> handleTap now u = setTapTimes [now] u.
Proof.
  intros H. apply timed_out_test in H. unfold handleTap. rewrite H. reflexivity.
Qed.

Lemma handleTap_live (now : Z) (u : ui) :
  ~ timed_out now (tapTimes u) ->
  handleTap now u =
    setTapTimes (slide (tapTimes u) now)
      (if 5 <=? Z.of_nat (length (slide (tapTimes u) now))
       then setBpm (BNum (tapBpm (slide (tapTimes u) now))) u
       else u).
Proof.
  intros H. unfold handleTap.
  destruct ((0 <? Z.of_nat (length (tapTimes u)))
            && (3000 <? now - List.last (tapTimes u) 0)) eqn:E.
  - apply timed_out_test in E. contradiction.
  - reflexivity.
Qed.

Lemma handleTap_window (now : Z) (u : ui) :
  tapTimes (handleTap now u) = [now] \/
  tapTimes (handleTap now u) = slide (tapTimes u) now.
Proof.
  unfold handleTap.
  destruct ((0 <? Z.of_nat (length (tapTimes u)))
            && (3000 <? now - List.last (tapTimes u) 0)); [left | right];
    reflexivity.
Qed.

Lemma slide_length (prev : list Z) (now : Z) :
  (length prev <= 5 -> length (slide prev now) <= 5)%nat.
Proof.
  intros H. unfold slide. rewrite length_app. cbn [length].
  destruct (5 <? Z.of_nat (length prev + 1)) eqn:E.
  - apply Z.ltb_lt in E.
    destruct prev as [| a rest]; cbn [length app List.tl] in *; [lia |].
    rewrite length_app. cbn [length]. lia.
  - apply Z.ltb_ge in E. rewrite length_app. cbn [length]. lia.
Qed.

Lemma handleTap_length (now : Z) (u : ui) :
  (length (tapTimes u) <= 5 -> length (tapTimes (handleTap now u)) <= 5)%nat.
Proof.
  intros H. destruct (handleTap_window now u) as [-> | ->].
  - cbn. lia.
  - apply slide_length, H.
Qed.

Lemma taps_length (nows : list Z) (u : ui) :
  (length (tapTimes u) <= 5 -> length (tapTimes (taps nows u)) <= 5)%nat.
Proof.
  revert u. induction nows as [| now rest IH]; intros u H; cbn.
  - exact H.
  - apply IH, handleTap_length, H.
Qed.

(** C8: a tap more than three seconds after the last one restarts the
    window at [[now]] and leaves the tempo alone; any other tap is
    appended, the oldest entry leaving once five are held; a window of
    at most five entries stays one, so from the empty window no sequence
    of taps holds more than five. *)
Theorem C8_tap_window (now : Z) (u : ui) :
  (timed_out now (tapTimes u) ->
     tapTimes (handleTap now u) = [now] /\ bpm (handleTap now u) = bpm u) /\
  (~ timed_out now (tapTimes u) ->
     ((length (tapTimes u) < 5)%nat ->
        tapTimes (handleTap now u) = tapTimes u ++ [now]) /\
     (forall oldest rest, tapTimes u = oldest :: rest ->
        (5 <= length (tapTimes u))%nat ->
        tapTimes (handleTap now u) = rest ++ [now])) /\
  ((length (tapTimes u) <= 5)%nat ->
     (length (tapTimes (handleTap now u)) <= 5)%nat) /\
  (tapTimes u = [] ->
     forall nows, (length (tapTimes (taps nows u)) <= 5)%nat).
Proof.
  repeat split.
  - rewrite (handleTap_timed_out _ _ H). reflexivity.
  - rewrite (handleTap_timed_out _ _ H). reflexivity.
  - intros Hlen. rewrite (handleTap_live _ _ H). cbn [tapTimes setTapTimes].
    unfold slide. rewrite length_app. cbn [length].
    destruct (5 <? Z.of_nat (length (tapTimes u) + 1)) eqn:E; [| reflexivity].
    apply Z.ltb_lt in E. lia.
  - intros oldest rest Hprev Hlen. rewrite (handleTap_live _ _ H).
    cbn [tapTimes setTapTimes]. unfold slide. rewrite length_app. cbn [length].
    destruct (5 <? Z.of_nat (length (tapTimes u) + 1)) eqn:E.
    + rewrite Hprev. reflexivity.
    + apply Z.ltb_ge in E. lia.
  - apply handleTap_length.
  - intros Hempty nows. apply taps_length. rewrite Hempty. cbn. lia.
Qed.

Lemma C8_tap_window_witness :
  tapTimes (handleTap 4000 (setTapTimes [0] initial_ui)) = [4000] /\
  bpm (handleTap 4000 (setTapTimes [0] initial_ui)) = BNum (of_Z 120) /\
  tapTimes (handleTap 2500 (setTapTimes [0; 500; 1000; 1500; 2000] initial_ui))
    = [500; 1000; 1500; 2000; 2500].
Proof.
  split; [| split].
  - apply (proj1 (C8_tap_window 4000 (setTapTimes [0] initial_ui))).
    exists [], 0. split; [reflexivity | lia].
  - apply (proj1 (C8_tap_window 4000 (setTapTimes [0] initial_ui))).
    exists [], 0. split; [reflexivity | lia].
  - refine (proj2 (proj1 (proj2 (C8_tap_window 2500
      (setTapTimes [0; 500; 1000; 1500; 2000] initial_ui))) _) 0
      [500; 1000; 1500; 2000] eq_refl _).
    + intros (init & a & Heq & Hgap).
      change (tapTimes (setTapTimes [0; 500; 1000; 1500; 2000] initial_ui))
        with ([0; 500; 1000; 1500] ++ [2000]) in Heq.
      apply app_inj_tail in Heq. destruct Heq as [_ <-]. lia.
    + cbn. lia.
Defined.

Lemma quarter_is_zero (total : Z) :
  Qeq_bool (inject_Z total / inject_Z 4) 0 = (total =? 0).
Proof. destruct total; reflexivity. Qed.

Lemma tapBpm_five (t0 t1 t2 t3 t4 : Z) :
  tapBpm [t0; t1; t2; t3; t4] =
    let total := (t1 - t0) + (t2 - t1) + (t3 - t2) + (t4 - t3) in
    if total =? 0 then of_Z MAX_BPM
    else of_Z (spec_tap_tempo (t1 - t0) (t2 - t1) (t3 - t2) (t4 - t3)).
Proof.
  unfold tapBpm. cbn [intervals_of fold_left length].
  rewrite Z.add_0_l.
  set (total := (t1 - t0) + (t2 - t1) + (t3 - t2) + (t4 - t3)).
  cbv zeta.
  change (Num.div (of_Z total) (of_Z (Z.of_nat 4)))
    with (Fin (Qred (inject_Z total / inject_Z 4))).
  unfold Num.div at 1. cbn [of_Z].
  rewrite (Qeqb_comp _ _ (Qred_correct _) 0%Q 0%Q (Qeq_refl 0%Q)), quarter_is_zero.
  destruct (total =? 0) eqn:E.
  - reflexivity.
  - replace (Num.round (Fin (Qred (inject_Z 60000 / Qred (inject_Z total / inject_Z 4)))))
      with (of_Z (round_half_up (60000 / (inject_Z total / 4)))).
    + rewrite clampBpm_of_Z. reflexivity.
    + unfold Num.round, round_half_up. f_equal. apply Qfloor_comp.
      rewrite !Qred_correct. reflexivity.
Qed.

Lemma handleTap_five (now : Z) (u : ui) (t0 t1 t2 t3 t4 : Z) :
  tapTimes (handleTap now u) = [t0; t1; t2; t3; t4] ->
  bpm (handleTap now u) = BNum (tapBpm [t0; t1; t2; t3; t4]).
Proof.
  unfold handleTap.
  destruct ((0 <? Z.of_nat (length (tapTimes u)))
            && (3000 <? now - List.last (tapTimes u) 0)).
  - cbn. discriminate.
  - cbv zeta. cbn [tapTimes setTapTimes]. intros ->. reflexivity.
Qed.



Lemma Qdiv_pos_neg (a y : Q) : (0 < a -> y < 0 -> a / y < 0)%Q.
Proof.
  destruct a as [an ad], y as [[| yn | yn] yd];
    unfold Qlt, Qdiv, Qmult, Qinv; cbn; intros Ha Hy; try lia.
Qed.

Lemma round_negative_total (total : Z) :
  total < 0 -> round_half_up (60000 / (inject_Z total / 4)) <= 0.
Proof.
  intros H. unfold round_half_up.
  set (x := (60000 / (inject_Z total / 4))%Q).
  assert (Hx : (x < 0)%Q).
  { apply Qdiv_pos_neg; [reflexivity |].
    unfold Qlt, Qdiv, Qmult, Qinv, inject_Z. cbn. lia. }
  pose proof (Qfloor_le (x + (1 # 2))) as Hfl.
  assert (Hlt : (inject_Z (Qfloor (x + (1 # 2))) < inject_Z 1)%Q).
  { change (inject_Z 1) with 1%Q. lra. }
  rewrite <- Zlt_Qlt in Hlt. lia.
Qed.

Lemma spec_tap_tempo_negative (i1 i2 i3 i4 : Z) :
  i1 + i2 + i3 + i4 < 0 -> spec_tap_tempo i1 i2 i3 i4 = MIN_BPM.
Proof.
  intros H. unfold spec_tap_tempo, clamp_tempo.
  pose proof (round_negative_total _ H). unfold MIN_BPM, MAX_BPM. lia.
Qed.

Lemma slide_last (prev : list Z) (now : Z) :
  exists front, slide prev now = front ++ [now].
Proof.
  unfold slide. destruct prev as [| a rest].
  - exists []. reflexivity.
  - destruct (5 <? Z.of_nat (length ((a :: rest) ++ [now]))).
    + exists rest. reflexivity.
    + exists (a :: rest). reflexivity.
Qed.

Lemma handleTap_last (now : Z) (u : ui) :
  exists front, tapTimes (handleTap now u) = front ++ [now].
Proof.
  destruct (handleTap_window now u) as [-> | ->].
  - exists []. reflexivity.
  - apply slide_last.
Qed.




(** ** Grid *)

Lemma cell_inj (v v' : voice) (col col' : Z) :
  cell v col = cell v' col' -> v = v' /\ col = col'.
Proof.
  unfold cell, grid_key, step_string.
  destruct v, v'; cbn; intros H; try discriminate;
    (split; [reflexivity |]); simplify_eq; by apply (inj pretty).
Qed.

Lemma active_insert (g : gmap string bool) (k k' : string) (b : bool) :
  active (<[k := b]> g) k' = if decide (k = k') then b else active g k'.
Proof.
  unfold active. rewrite lookup_insert. by case_decide.
Qed.

(** C10: toggling a cell negates that cell, keeps every other cell and
    every other key of the grid and every other part of the state;
    toggling it twice gives every key its first status back. *)
Theorem C10_toggle_cell (u : ui) (v : voice) (col : Z) :
  let u' := toggleGridParams (row_of v) col u in
  active (grid u') (cell v col) = negb (active (grid u) (cell v col)) /\
  (forall v' col', (v', col') <> (v, col) ->
     active (grid u') (cell v' col') = active (grid u) (cell v' col')) /\
  (forall key, key <> cell v col -> grid u' !! key = grid u !! key) /\
  setGrid (grid u) u' = u /\
  (forall key,
     active (grid (toggleGridParams (row_of v) col u')) key = active (grid u) key).
Proof.
  cbv zeta. unfold toggleGridParams. fold (cell v col).
  cbn [grid setGrid]. repeat split.
  - rewrite active_insert. by case_decide.
  - intros v' col' Hne. rewrite active_insert. case_decide as Heq; [| done].
    apply cell_inj in Heq. destruct Heq as [-> ->]. done.
  - intros key Hne. by rewrite lookup_insert_ne.
  - by destruct u.
  - intros key. rewrite !active_insert.
    repeat case_decide; try done. subst key. apply negb_involutive.
Qed.

Lemma C10_toggle_cell_witness :
  active (grid (toggleGridParams (row_of kick) 2 initial_ui)) (cell snare 2)
    = active (grid initial_ui) (cell snare 2).
Proof.
  apply (proj1 (proj2 (C10_toggle_cell initial_ui kick 2)) snare 2).
  discriminate.
Defined.

(** ** Rendering a step *)

(** C9: [scheduleNote] calls the renderer for the voices whose cell at
    the step is active, and for no other: none when the step has no
    entry in the grid, the kick alone when only its cell is active, as
    after toggling the kick cell of an empty column. *)
Theorem C9_render_active_voices (r : refs) (now time : num) (s : stepv) :
  sounds (scheduleNote r now s time) =
    map (fun v => (v, time))
        (List.filter (fun v => active (gridRef r) (grid_key (row_of v) s))
                     voices_in_order) /\
  ((forall v, gridRef r !! grid_key (row_of v) s = None) ->
     sounds (scheduleNote r now s time) = []) /\
  (active (gridRef r) (grid_key (row_of kick) s) = true ->
   active (gridRef r) (grid_key (row_of snare) s) = false ->
   active (gridRef r) (grid_key (row_of hat) s) = false ->
     sounds (scheduleNote r now s time) = [(kick, time)]) /\
  (forall (u : ui) (col : Z),
     r = sync_refs (toggleGridParams "low" col u) -> s = Step col ->
     (forall v, grid u !! cell v col = None) ->
     sounds (scheduleNote r now s time) = [(kick, time)]).
Proof.
  assert (Hall : sounds (scheduleNote r now s time) =
    map (fun v => (v, time))
        (List.filter (fun v => active (gridRef r) (grid_key (row_of v) s))
                     voices_in_order)).
  { unfold scheduleNote, play_if_active, voices_in_order. cbn [List.filter].
    destruct (active (gridRef r) (grid_key (row_of hat) s)),
             (active (gridRef r) (grid_key (row_of snare) s)),
             (active (gridRef r) (grid_key (row_of kick) s)); reflexivity. }
  split; [exact Hall |]. rewrite Hall. unfold voices_in_order. cbn [List.filter].
  repeat split.
  - intros Hnone. unfold active. rewrite !Hnone. reflexivity.
  - intros -> -> ->. reflexivity.
  - intros u col -> -> Hnone.
    pose proof (C := fun v' => active_insert (grid u) (cell kick col)
                                 (cell v' col) (negb (active (grid u) (cell kick col)))).
    cbn [sync_refs gridRef toggleGridParams grid setGrid].
    change (grid_key "low" (Step col)) with (cell kick col).
    fold (cell hat col) (cell snare col) (cell kick col).
    rewrite !C. clear C.
    rewrite (decide_False (P := cell kick col = cell hat col))
      by (intros H; apply cell_inj in H; destruct H; discriminate).
    rewrite (decide_False (P := cell kick col = cell snare col))
      by (intros H; apply cell_inj in H; destruct H; discriminate).
    rewrite (decide_True (P := cell kick col = cell kick col)) by reflexivity.
    unfold active. rewrite !Hnone. reflexivity.
Qed.

Lemma C9_render_active_voices_witness :
  sounds (scheduleNote (sync_refs (toggleGridParams "low" 2 (setGrid ∅ initial_ui)))
                       (of_Z 0) (Step 2) (of_Z 1))
    = [(kick, of_Z 1)].
Proof.
  apply (proj2 (proj2 (proj2 (C9_render_active_voices
           (sync_refs (toggleGridParams "low" 2 (setGrid ∅ initial_ui)))
           (of_Z 0) (of_Z 1) (Step 2))))
         (setGrid ∅ initial_ui) 2 eq_refl eq_refl).
  intros v. apply lookup_empty.
Defined.

(** ** The scheduler when playback is stopped *)

(** In [src/app.js] and [src/unnamed/part_001] a call with
    [isPlayingRef.current] false does nothing. *)
Lemma Ext_scheduler_stopped (r : refs) (fuel : nat) (now : num) (c : cursor) :
  isPlayingRef r = false -> Ext.scheduler r fuel now c = Some (c, []).
Proof. intros H. unfold Ext.scheduler. rewrite H. reflexivity. Qed.

Lemma App_scheduler_stopped (r : refs) (fuel : nat) (now : num) (c : cursor) :
  isPlayingRef r = false -> App.scheduler r fuel now c = Some (c, []).
Proof. intros H. unfold App.scheduler. rewrite H. reflexivity. Qed.

(** The scheduler of [src/unnamed/part_002] does not read the playback
    state. *)
Lemma Legacy_scheduler_ignores_playing (p : bool) (u : ui) (fuel : nat)
    (now : num) (c : cursor) :
  Legacy.scheduler (setIsPlaying p u) fuel now c = Legacy.scheduler u fuel now c.
Proof. reflexivity. Qed.


(** ** Playhead sync *)

(** The delay handed to [setTimeout], for finite times, in milliseconds. *)
Lemma visual_timeout_delay (cb : callback) (now t : Q) :
  visual_timeout cb (Fin now) (Fin t) =
    SetTimeout cb
      (if Qltb 0 (Qred (Qred (t + - now) * 1000))
       then Fin (Qred (Qred (t + - now) * 1000))
       else of_Z 0).
Proof. reflexivity. Qed.

(** In [src/app.js] and [src/unnamed/part_001] the timer of an onset
    carries the delay [max(0, (time - now) * 1000)] and its callback
    tests [isPlayingRef.current] when it fires. *)
Lemma playhead_sync_guarded (r : refs) (now time : num) (s : stepv) (u : ui) :
  (exists played,
     scheduleNote r now s time =
       played ++ [SetTimeout (CbShowStepIfPlaying s)
                    (Num.max (of_Z 0) (Num.mul (Num.sub time now) (of_Z 1000)))]
     /\ emitted_steps played = []) /\
  fire (CbShowStepIfPlaying s) true u = setCurrentStep s u /\
  fire (CbShowStepIfPlaying s) false u = u.
Proof.
  repeat split.
  exists (play_if_active (gridRef r) hat s time ++
          play_if_active (gridRef r) snare s time ++
          play_if_active (gridRef r) kick s time).
  split.
  - unfold scheduleNote. rewrite <- !app_assoc. reflexivity.
  - unfold play_if_active.
    destruct (active _ _), (active _ _), (active _ _); reflexivity.
Qed.

(** C6 in [src/unnamed/part_002]: the callback sets the step without
    looking at the playback state.  The onset of step 1 at 0.5 s,
    scheduled when the clock reads 0.425 s, registers a timer of 75 ms;
    playback stops, which resets the highlight to -1 and cancels the
    scheduler timer only; the timer fires and step 1 is highlighted.
    The callback of the other two revisions leaves the state alone
    there. *)
Theorem C6_legacy_highlight_after_stop :
  let playing := setIsPlaying true initial_ui in
  let now := Fin (425 # 1000) in
  let registered := Legacy.scheduleNote playing now (Step 1) (Fin (1 # 2)) in
  let stopped := stop_effect (setIsPlaying false playing) in
  registered = [SetTimeout (CbShowStep (Step 1)) (of_Z 75)] /\
  snd stopped = [ClearTimeout] /\
  isPlaying (fst stopped) = false /\
  currentStep (fst stopped) = Step (-1) /\
  currentStep (fire (CbShowStep (Step 1)) (isPlaying (fst stopped)) (fst stopped))
    = Step 1 /\
  fire (CbShowStepIfPlaying (Step 1)) (isPlaying (fst stopped)) (fst stopped)
    = fst stopped.
Proof. repeat split. Qed.

(** ** Tempo assignment *)

Lemma intervals_of_length (l : list Z) :
  length (intervals_of l) = (length l - 1)%nat.
Proof.
  induction l as [| a [| b rest] IH]; [reflexivity | reflexivity |].
  change (intervals_of (a :: b :: rest)) with ((b - a) :: intervals_of (b :: rest)).
  cbn [length] in *. rewrite IH. lia.
Qed.

Lemma tapBpm_range (l : list Z) :
  (2 <= length l)%nat -> int_between MIN_BPM MAX_BPM (tapBpm l).
Proof.
  intros Hlen. unfold tapBpm. apply round_clamp_range.
  rewrite intervals_of_length.
  set (total := fold_left Z.add (intervals_of l) 0).
  set (n := Z.of_nat (length l - 1)).
  assert (Hn : Qeq_bool (inject_Z n) 0 = false).
  { destruct (Qeq_bool (inject_Z n) 0) eqn:E; [| reflexivity].
    apply Qeq_bool_iff in E. unfold Qeq, inject_Z in E. cbn [Qnum Qden] in E.
    unfold n in E. lia. }
  unfold Num.div at 2. cbn [of_Z]. rewrite Hn.
  unfold Num.div. cbn [of_Z].
  destruct (Qeq_bool (Qred (inject_Z total / inject_Z n)) 0); discriminate.
Qed.

Lemma handleTap_bpm (now : Z) (u : ui) :
  bpm (handleTap now u) = bpm u \/ tempo_in_range (bpm (handleTap now u)).
Proof.
  unfold handleTap.
  destruct ((0 <? Z.of_nat (length (tapTimes u)))
            && (3000 <? now - List.last (tapTimes u) 0)); [left; reflexivity |].
  cbv zeta.
  set (newTaps := if 5 <? Z.of_nat (length (tapTimes u ++ [now]))
                  then List.tl (tapTimes u ++ [now]) else tapTimes u ++ [now]).
  destruct (5 <=? Z.of_nat (length newTaps)) eqn:E; [right | left; reflexivity].
  apply Z.leb_le in E. eexists. split; [reflexivity |].
  apply tapBpm_range. lia.
Qed.

(** The two spellings of the dial clamp agree. *)
Lemma clamp_by_tests (n : num) :
  (let n1 := if Num.lt n (of_Z MIN_BPM) then of_Z MIN_BPM else n in
   if Num.gt n1 (of_Z MAX_BPM) then of_Z MAX_BPM else n1) = clampBpm n.
Proof.
  destruct n as [q | | |]; try reflexivity.
  cbv zeta. unfold clampBpm, Num.gt, Num.max. cbn [of_Z Num.lt].
  destruct (Qltb q (inject_Z MIN_BPM)); reflexivity.
Qed.

Lemma updateBpmFromDelta_same (last : num * num) (x y : num) (u : ui) :
  App.updateBpmFromDelta last x y u = Ext.updateBpmFromDelta last x y u.
Proof.
  unfold App.updateBpmFromDelta, Ext.updateBpmFromDelta.
  cbv zeta. rewrite <- clamp_by_tests. reflexivity.
Qed.

Lemma clamp_round_range (n : num) :
  n <> NaN -> int_between MIN_BPM MAX_BPM (Num.round (clampBpm n)).
Proof.
  destruct n as [q | | |]; intros Hn; try congruence.
  - unfold clampBpm, Num.max. cbn [of_Z Num.lt].
    destruct (Qltb q (inject_Z MIN_BPM)) eqn:E1.
    + exists MIN_BPM. split; [reflexivity | unfold MIN_BPM, MAX_BPM; lia].
    + unfold Num.min. cbn [of_Z Num.lt].
      destruct (Qltb (inject_Z MAX_BPM) q) eqn:E2.
      * exists MAX_BPM. split; [reflexivity | unfold MIN_BPM, MAX_BPM; lia].
      * apply Qltb_ge in E1, E2. eexists. split; [reflexivity |].
        pose proof (Qfloor_resp_le (inject_Z MIN_BPM + (1 # 2)) (q + (1 # 2))) as Hlo.
        pose proof (Qfloor_resp_le (q + (1 # 2)) (inject_Z MAX_BPM + (1 # 2))) as Hhi.
        change (Qfloor (inject_Z MIN_BPM + (1 # 2))) with MIN_BPM in Hlo.
        change (Qfloor (inject_Z MAX_BPM + (1 # 2))) with MAX_BPM in Hhi.
        split; [apply Hlo | apply Hhi]; lra.
  - exists MAX_BPM. split; [reflexivity | unfold MIN_BPM, MAX_BPM; lia].
  - exists MIN_BPM. split; [reflexivity | unfold MIN_BPM, MAX_BPM; lia].
Qed.

Lemma dial_range (lx ly x y : Q) (u : ui) :
  tempo_in_range (bpm (Ext.updateBpmFromDelta (Fin lx, Fin ly) (Fin x) (Fin y) u)).
Proof.
  unfold Ext.updateBpmFromDelta. cbn [bpm setBpm].
  eexists. split; [reflexivity |]. apply clamp_round_range.
  unfold pointer_change, dial_start. cbn [fst snd Num.sub Num.neg Num.add Num.mul].
  destruct (bpm u) as [| [q | | |]]; cbn; discriminate.
Qed.

Lemma parseInt_empty : parseInt "" = None.
Proof. reflexivity. Qed.

Lemma handleBpmChange_same (s : string) (u : ui) :
  App.handleBpmChange s u = Ext.handleBpmChange s u.
Proof.
  unfold App.handleBpmChange, Ext.handleBpmChange.
  destruct (String.eqb s "") eqn:E.
  - apply String.eqb_eq in E. subst s. reflexivity.
  - destruct (parseInt s) as [v |]; [| reflexivity].
    unfold Num.min. cbn [of_Z]. fold (of_Z MAX_BPM) (of_Z v). rewrite lt_of_Z.
    destruct (MAX_BPM <? v); reflexivity.
Qed.

Lemma handleBpmChange_entry (s : string) (u : ui) :
  bpm (App.handleBpmChange s u) = bpm u \/
  entry_value (bpm (App.handleBpmChange s u)).
Proof.
  unfold App.handleBpmChange.
  destruct (String.eqb s ""); [right; left; reflexivity |].
  destruct (parseInt s) as [v |]; [right; right | left; reflexivity].
  eexists. split; [reflexivity |].
  destruct (MAX_BPM <? v) eqn:E; [lia | apply Z.ltb_ge in E; lia].
Qed.

Lemma handleBpmBlur_range (u : ui) :
  entry_value (bpm u) -> tempo_in_range (bpm (handleBpmBlur u)).
Proof.
  unfold handleBpmBlur. intros [H | (z & H & Hz)]; rewrite H.
  - eexists. split; [reflexivity |].
    exists MIN_BPM. split; [reflexivity | unfold MIN_BPM, MAX_BPM; lia].
  - cbn [is_empty to_number Num.isNaN of_Z orb].
    fold (of_Z z) (of_Z MIN_BPM). rewrite lt_of_Z.
    destruct (z <? MIN_BPM) eqn:E.
    + eexists. split; [reflexivity |].
      exists MIN_BPM. split; [reflexivity | unfold MIN_BPM, MAX_BPM; lia].
    + rewrite H. apply Z.ltb_ge in E. eexists. split; [reflexivity |].
      exists z. split; [reflexivity | lia].
Qed.

(** With a tempo in range the scheduler computes between 0.24 s and 2 s
    per beat. *)
Lemma secondsPerBeat_range (r : refs) :
  tempo_in_range (bpmRef r) ->
  exists q, App.secondsPerBeat r = Fin q /\ (6 # 25 <= q <= 2)%Q.
Proof.
  intros (n & Hr & z & -> & Hz). unfold App.secondsPerBeat. rewrite Hr.
  unfold MIN_BPM, MAX_BPM in Hz. cbn [to_number]. unfold Num.div, of_Z.
  assert (Hnz : Qeq_bool (inject_Z z) 0 = false).
  { destruct (Qeq_bool (inject_Z z) 0) eqn:E; [| reflexivity].
    apply Qeq_bool_iff in E. unfold Qeq, inject_Z in E. cbn [Qnum Qden] in E. lia. }
  rewrite Hnz. eexists. split; [reflexivity |]. rewrite Qred_correct.
  assert (Hlo : (inject_Z 30 <= inject_Z z)%Q) by (rewrite <- Zle_Qle; lia).
  assert (Hhi : (inject_Z z <= inject_Z 250)%Q) by (rewrite <- Zle_Qle; lia).
  change (inject_Z 30) with 30%Q in Hlo. change (inject_Z 250) with 250%Q in Hhi.
  change (inject_Z 60) with 60%Q.
  split.
  - apply Qle_shift_div_l; lra.
  - apply Qle_shift_div_r; lra.
Qed.

(** C7, as the code has it.  Tap and dial assign integers in [30, 250].
    The entry box assigns the empty string or any integer up to 250, in
    both spellings of [handleBpmChange]; the lower bound comes with
    [handleBpmBlur], after which the tempo is an integer in [30, 250] and
    the scheduler computes between 0.24 s and 2 s per beat. *)
Theorem C7_tempo_assignment :
  (forall now u,
     bpm (handleTap now u) = bpm u \/ tempo_in_range (bpm (handleTap now u))) /\
  (forall (lx ly x y : Q) u,
     tempo_in_range
       (bpm (App.updateBpmFromDelta (Fin lx, Fin ly) (Fin x) (Fin y) u)) /\
     tempo_in_range
       (bpm (Ext.updateBpmFromDelta (Fin lx, Fin ly) (Fin x) (Fin y) u))) /\
  (forall s u,
     Ext.handleBpmChange s u = App.handleBpmChange s u /\
     (bpm (App.handleBpmChange s u) = bpm u \/
      entry_value (bpm (App.handleBpmChange s u)))) /\
  (forall u, entry_value (bpm u) ->
     tempo_in_range (bpm (handleBpmBlur u)) /\
     exists q, App.secondsPerBeat (sync_refs (handleBpmBlur u)) = Fin q /\
               (6 # 25 <= q <= 2)%Q).
Proof.
  repeat split.
  - apply handleTap_bpm.
  - rewrite updateBpmFromDelta_same. apply dial_range.
  - apply dial_range.
  - symmetry. apply handleBpmChange_same.
  - apply handleBpmChange_entry.
  - apply handleBpmBlur_range, H.
  - apply secondsPerBeat_range. apply handleBpmBlur_range, H.
Qed.

Lemma C7_tempo_assignment_witness :
  tempo_in_range (bpm (handleBpmBlur (App.handleBpmChange "5" initial_ui))).
Proof.
  refine (proj1 (proj2 (proj2 (proj2 C7_tempo_assignment))
                   (App.handleBpmChange "5" initial_ui) _)).
  right. exists 5. split; [reflexivity | unfold MAX_BPM; lia].
Defined.

(** C7 as stated fails: typing [5] into the entry box stores 5, which
    the scheduler reads as 12 s per beat, and emptying the box stores
    the empty string, which it reads as [60 / 0 = Infinity]. *)
Lemma C7_counterexample :
  let typed := App.handleBpmChange "5" initial_ui in
  let emptied := App.handleBpmChange "" initial_ui in
  tempo_in_range (bpm initial_ui) /\
  bpmRef (sync_refs typed) = BNum (of_Z 5) /\
  ~ tempo_in_range (bpmRef (sync_refs typed)) /\
  App.secondsPerBeat (sync_refs typed) = of_Z 12 /\
  bpmRef (sync_refs emptied) = BEmpty /\
  ~ tempo_in_range (bpmRef (sync_refs emptied)) /\
  App.secondsPerBeat (sync_refs emptied) = PInf.
Proof.
  cbv zeta. repeat split.
  - eexists. split; [reflexivity |].
    exists 120. split; [reflexivity | unfold MIN_BPM, MAX_BPM; lia].
  - intros (n & Hn & z & Hz & Hr). vm_compute in Hn. injection Hn as <-.
    unfold of_Z, inject_Z in Hz. injection Hz as Hz. unfold MIN_BPM in Hr. lia.
  - intros (n & Hn & _). discriminate.
Qed.

(** ** The scheduling loop *)

Lemma due_lt (now q : Q) (s : stepv) :
  due (Fin now) (mk_cursor (Fin q) s) = true <-> (q < now + (1 # 10))%Q.
Proof.
  unfold due, scheduleAheadTime. cbn [nextNoteTime Num.add Num.lt].
  rewrite Qltb_lt, Qred_correct. reflexivity.
Qed.

Lemma due_ge (now q : Q) (s : stepv) :
  due (Fin now) (mk_cursor (Fin q) s) = false <-> (now + (1 # 10) <= q)%Q.
Proof.
  unfold due, scheduleAheadTime. cbn [nextNoteTime Num.add Num.lt].
  rewrite Qltb_ge, Qred_correct. reflexivity.
Qed.

Lemma onset_time_0 (q sps : Q) : onset_time q sps 0 == q.
Proof. unfold onset_time. cbn. ring. Qed.

Lemma onset_time_S (q q1 sps : Q) (k : nat) :
  q1 == q + sps -> onset_time q1 sps k == onset_time q sps (S k).
Proof.
  intros H. unfold onset_time.
  rewrite Nat2Z.inj_succ. unfold Z.succ. rewrite inject_Z_plus, H.
  change (inject_Z 1) with 1%Q. ring.
Qed.

Lemma onset_time_ge (q sps : Q) (k : nat) : (0 < sps -> q <= onset_time q sps k)%Q.
Proof.
  intros Hpos. unfold onset_time.
  assert (H : (0 <= inject_Z (Z.of_nat k) * sps)%Q).
  { apply Qmult_le_0_compat; [| lra].
    change 0%Q with (inject_Z 0). rewrite <- Zle_Qle. lia. }
  lra.
Qed.

Lemma step_seq_S_r (n z : Z) (k : nat) :
  step_seq n ((z + 1) mod n) k = step_seq n z (S k).
Proof. unfold step_seq. rewrite Nat.iter_succ_r. reflexivity. Qed.

Lemma step_seq_nonneg (n z : Z) (k : nat) : 1 <= n -> 0 <= z -> 0 <= step_seq n z k.
Proof.
  intros Hn Hz. destruct k as [| k]; [exact Hz |].
  unfold step_seq. rewrite Nat.iter_succ. apply Z.mod_pos_bound. lia.
Qed.

Lemma step_next_mod (n z : Z) :
  1 <= n -> 0 <= z -> step_next (Step z) n = Step ((z + 1) mod n).
Proof.
  intros Hn Hz. unfold step_next.
  destruct (n =? 0) eqn:E; [apply Z.eqb_eq in E; lia |].
  rewrite Z.rem_mod_nonneg by lia. reflexivity.
Qed.

(** From the cycle start the closed form is [k mod n]. *)
Lemma step_seq_from_0 (n : Z) (k : nat) :
  1 <= n -> step_seq n 0 k = Z.of_nat k mod n.
Proof.
  intros Hn. induction k as [| k IH].
  - cbn. rewrite Z.mod_0_l by lia. reflexivity.
  - unfold step_seq in *. rewrite Nat.iter_succ, IH.
    rewrite Nat2Z.inj_succ. unfold Z.succ.
    rewrite Zplus_mod_idemp_l. reflexivity.
Qed.

Section LoopSpec.
Variables (now sps' sps : Q) (n : Z).
Hypothesis Hsps : sps' == sps.
Hypothesis Hpos : (0 < sps)%Q.
Hypothesis Hn : 1 <= n.

Lemma loop_stops (q : Q) (z : Z) :
  (now + (1 # 10) <= q)%Q ->
  loop_spec now sps' sps n q z 0 [] (mk_cursor (Fin q) (Step z)).
Proof.
  intros Hq. unfold loop_spec. repeat split.
  - intros [| fuel] Hfuel; [lia |]. cbn [while_due].
    rewrite (proj2 (due_ge now q (Step z)) Hq). reflexivity.
  - intros k o Hk. destruct k; discriminate.
  - exists q. split; [reflexivity |]. symmetry. apply onset_time_0.
  - lia.
  - intros Hk. pose proof (onset_time_ge q sps k Hpos). lra.
Qed.

Lemma loop_bounded (N : nat) :
  forall q z, 0 <= z ->
    (now + (1 # 10) - q <= inject_Z (Z.of_nat N) * sps)%Q ->
    exists m onsets c', loop_spec now sps' sps n q z m onsets c'.
Proof.
  induction N as [| N IH]; intros q z Hz Hbound.
  - exists 0%nat, [], (mk_cursor (Fin q) (Step z)). apply loop_stops.
    change (inject_Z (Z.of_nat 0)) with 0%Q in Hbound. lra.
  - destruct (Qlt_le_dec q (now + (1 # 10))) as [Hdue | Hstop].
    2: { exists 0%nat, [], (mk_cursor (Fin q) (Step z)). by apply loop_stops. }
    set (q1 := Qred (q + sps')).
    assert (Hq1 : q1 == q + sps).
    { unfold q1. rewrite Qred_correct, Hsps. reflexivity. }
    destruct (IH q1 ((z + 1) mod n)) as (m & onsets & c' & Hrun & Hlen & Hons & Hend & Hiff).
    { apply Z.mod_pos_bound. lia. }
    { rewrite Nat2Z.inj_succ in Hbound. unfold Z.succ in Hbound.
      rewrite inject_Z_plus in Hbound. change (inject_Z 1) with 1%Q in Hbound.
      rewrite Hq1. lra. }
    exists (S m), (mk_cursor (Fin q) (Step z) :: onsets), c'.
    unfold loop_spec. repeat split.
    + intros [| fuel] Hfuel; [lia |]. cbn [while_due].
      rewrite (proj2 (due_lt now q (Step z)) Hdue).
      unfold advance. cbn [nextNoteTime step Num.add].
      rewrite step_next_mod by assumption. fold q1.
      rewrite Hrun by lia. reflexivity.
    + cbn [length]. by rewrite Hlen.
    + intros [| k] o Hk.
      * cbn in Hk. injection Hk as <-. exists q. split; [reflexivity |].
        symmetry. apply onset_time_0.
      * cbn in Hk. destruct (Hons k o Hk) as (qk & -> & Hqk).
        exists qk. split.
        -- rewrite <- step_seq_S_r. reflexivity.
        -- rewrite Hqk. by apply onset_time_S.
    + destruct Hend as (qe & -> & Hqe). exists qe. split.
      * rewrite <- step_seq_S_r. reflexivity.
      * rewrite Hqe. by apply onset_time_S.
    + intros Hk. destruct k as [| k].
      * rewrite onset_time_0. exact Hdue.
      * rewrite <- (onset_time_S q q1 sps k Hq1). apply Hiff. lia.
    + intros Hk. destruct k as [| k]; [lia |].
      rewrite <- (onset_time_S q q1 sps k Hq1) in Hk. apply Hiff in Hk. lia.
Qed.

(** The loop ends, whatever the finite cursor and clock. *)
Lemma loop_total (q : Q) (z : Z) :
  0 <= z -> exists m onsets c', loop_spec now sps' sps n q z m onsets c'.
Proof.
  intros Hz.
  set (x := ((now + (1 # 10) - q) / sps)%Q).
  apply (loop_bounded (Z.to_nat (Qceiling x))); [exact Hz |].
  assert (Hx : (now + (1 # 10) - q == x * sps)%Q).
  { unfold x. field. lra. }
  pose proof (Qle_ceiling x) as Hceil.
  assert (Hc : (inject_Z (Qceiling x) <= inject_Z (Z.of_nat (Z.to_nat (Qceiling x))))%Q).
  { rewrite <- Zle_Qle. lia. }
  rewrite Hx. apply Qmult_le_compat_r; lra.
Qed.

End LoopSpec.

(** ** One scheduler call while playing *)

Lemma tick_of_loop tick note (sps' sps : Q) (n : Z) (now q : Q) (z : Z) :
  (forall fuel c,
     tick fuel (Fin now) c =
       match while_due (Fin now) (Fin sps') n fuel c with
       | Some (c', onsets) =>
           Some (c', notes (note (Fin now)) onsets
                     ++ [SetTimeout CbScheduler lookahead])
       | None => None
       end) ->
  sps' == sps -> (0 < sps)%Q -> 1 <= n -> 0 <= z ->
  tick_spec tick note sps n now q z.
Proof.
  intros Htick Hsps Hpos Hn Hz.
  destruct (loop_total now sps' sps n Hsps Hpos Hn q z Hz)
    as (m & onsets & c' & Hrun & Hrest).
  exists m, onsets, c'. split; [| exact Hrest].
  intros fuel Hfuel. rewrite Htick, Hrun by exact Hfuel. reflexivity.
Qed.

Lemma Qeq_bool_pos (x : Q) : (0 < x)%Q -> Qeq_bool x 0 = false.
Proof.
  intros H. destruct (Qeq_bool x 0) eqn:E; [| reflexivity].
  apply Qeq_bool_iff in E. lra.
Qed.

Lemma secondsPerBeat_value (b : Q) :
  (0 < b)%Q ->
  Num.div (of_Z 60) (Fin b) = Fin (Qred (60 / b)) /\ (0 < 60 / b)%Q.
Proof.
  intros Hb. split.
  - unfold Num.div, of_Z. rewrite (Qeq_bool_pos b Hb). reflexivity.
  - apply Qlt_shift_div_l; lra.
Qed.

Lemma secondsPerStep_value (b : Q) (sub : Z) :
  (0 < b)%Q -> 0 < sub ->
  Num.div (Num.div (of_Z 60) (Fin b)) (of_Z sub)
    = Fin (Qred (Qred (60 / b) / inject_Z sub))
  /\ Qred (Qred (60 / b) / inject_Z sub) == 60 / b / inject_Z sub
  /\ (0 < 60 / b / inject_Z sub)%Q.
Proof.
  intros Hb Hsub.
  destruct (secondsPerBeat_value b Hb) as [-> Hpos].
  assert (Hs : (0 < inject_Z sub)%Q).
  { change 0%Q with (inject_Z 0). rewrite <- Zlt_Qlt. exact Hsub. }
  repeat split.
  - unfold Num.div, of_Z. rewrite (Qeq_bool_pos _ Hs). reflexivity.
  - rewrite !Qred_correct. reflexivity.
  - apply Qlt_shift_div_l; lra.
Qed.

Lemma Ext_tick_spec (r : refs) (b now q : Q) (z : Z) :
  isPlayingRef r = true -> bpmRef r = BNum (Fin b) ->
  (0 < b)%Q -> 0 < subRef r -> 1 <= beatsRef r -> 0 <= z ->
  tick_spec (Ext.scheduler r) (scheduleNote r)
            (60 / b / inject_Z (subRef r)) (beatsRef r) now q z.
Proof.
  intros Hplay Hbpm Hb Hsub Hn Hz.
  destruct (secondsPerStep_value b (subRef r) Hb Hsub) as (Hval & Heq & Hpos).
  apply (tick_of_loop _ _ (Qred (Qred (60 / b) / inject_Z (subRef r))));
    try assumption.
  intros fuel c. unfold Ext.scheduler, Ext.secondsPerStep.
  rewrite Hplay, Hbpm. cbn [to_number]. rewrite Hval. reflexivity.
Qed.

Lemma App_tick_spec (r : refs) (b now q : Q) (z : Z) :
  isPlayingRef r = true -> bpmRef r = BNum (Fin b) ->
  (0 < b)%Q -> 1 <= beatsRef r -> 0 <= z ->
  tick_spec (App.scheduler r) (scheduleNote r) (60 / b) (beatsRef r) now q z.
Proof.
  intros Hplay Hbpm Hb Hn Hz.
  destruct (secondsPerBeat_value b Hb) as (Hval & Hpos).
  apply (tick_of_loop _ _ (Qred (60 / b))); try assumption.
  - intros fuel c. unfold App.scheduler, App.secondsPerBeat.
    rewrite Hplay, Hbpm. cbn [to_number]. rewrite Hval. reflexivity.
  - apply Qred_correct.
Qed.

Lemma Legacy_tick_spec (u : ui) (b now q : Q) (z : Z) :
  bpm u = BNum (Fin b) -> (0 < b)%Q -> 1 <= beatsPerCycle u -> 0 <= z ->
  tick_spec (Legacy.scheduler u) (Legacy.scheduleNote u) (60 / b)
            (beatsPerCycle u) now q z.
Proof.
  intros Hbpm Hb Hn Hz.
  destruct (secondsPerBeat_value b Hb) as (Hval & Hpos).
  apply (tick_of_loop _ _ (Qred (60 / b))); try assumption.
  - intros fuel c. unfold Legacy.scheduler, Legacy.secondsPerBeat.
    rewrite Hbpm. cbn [to_number]. rewrite Hval. reflexivity.
  - apply Qred_correct.
Qed.

(** The first call after a start at 120 BPM, one subdivision. *)
Lemma first_tick_120 (now : Q) (fuel : nat) (beats : Z) :
  1 <= beats ->
  while_due (Fin now) (Fin (1 # 2)) beats (S (S fuel)) (start_cursor (Fin now))
    = Some (mk_cursor (Fin (Qred (now + (1 # 2)))) (Step (1 mod beats)),
            [start_cursor (Fin now)]).
Proof.
  intros Hn. unfold start_cursor. cbn [while_due].
  rewrite (proj2 (due_lt now now (Step 0))) by lra.
  unfold advance. cbn [nextNoteTime step Num.add].
  rewrite step_next_mod by lia. cbn [Z.add].
  rewrite (proj2 (due_ge now (Qred (now + (1 # 2))) _)).
  - reflexivity.
  - rewrite Qred_correct. lra.
Qed.



(** ** Successive calls *)

Lemma emitted_steps_app (a b : list event) :
  emitted_steps (a ++ b) = emitted_steps a ++ emitted_steps b.
Proof. apply omap_app. Qed.

Lemma map_seq_from (A : Type) (f : nat -> A) (a len : nat) :
  map f (seq a len) = map (fun k => f (a + k)%nat) (seq 0 len).
Proof.
  revert a f. induction len as [| len IH]; intros a f; [reflexivity |].
  cbn [seq map]. rewrite Nat.add_0_r. f_equal.
  rewrite (IH (S a) f), (IH 1%nat (fun k => f (a + k)%nat)).
  apply map_ext. intros k. f_equal. lia.
Qed.

Lemma cycle_from_app (n z : Z) (a b : nat) :
  cycle_from n z (a + b) = cycle_from n z a ++ cycle_from n (step_seq n z a) b.
Proof.
  unfold cycle_from. rewrite seq_app, map_app. f_equal.
  rewrite map_seq_from. apply map_ext. intros k. f_equal.
  unfold step_seq. rewrite Nat.add_comm. apply Nat.iter_add.
Qed.

Lemma steps_of_onsets (n : Z) (onsets : list cursor) :
  forall z,
    (forall k o, onsets !! k = Some o -> step o = Step (step_seq n z k)) ->
    map step onsets = cycle_from n z (length onsets).
Proof.
  induction onsets as [| o rest IH]; intros z H; [reflexivity |].
  change (length (o :: rest)) with (1 + length rest)%nat.
  rewrite cycle_from_app. cbn [map app cycle_from seq]. f_equal.
  - apply (H 0%nat o). reflexivity.
  - apply IH. intros k o' Hk. rewrite (H (S k) o' Hk).
    unfold step_seq. rewrite Nat.iter_succ_r. reflexivity.
Qed.

Section RunSpec.
Variable tick : nat -> num -> cursor -> option (cursor * list event).
Variable note : num -> stepv -> num -> list event.
Variables (sps : Q) (n : Z).
Hypothesis Hn : 1 <= n.
Hypothesis Htick : forall now q z, 0 <= z -> tick_spec tick note sps n now q z.
Hypothesis Hnote : forall now s t, emitted_steps (note now s t) = [s].

Lemma emitted_notes (now : num) (onsets : list cursor) :
  emitted_steps (notes (note now) onsets ++ [SetTimeout CbScheduler lookahead])
    = map step onsets.
Proof.
  rewrite emitted_steps_app. change (emitted_steps [_]) with (@nil stepv).
  rewrite app_nil_r. induction onsets as [| o rest IH]; [reflexivity |].
  unfold notes in *. cbn [flat_map map].
  rewrite emitted_steps_app, Hnote, IH. reflexivity.
Qed.

(** Calls at the clock readings [nows], from the cursor [(q, z)]: with
    enough fuel they all return, and the steps passed to
    [scheduleNote] are consecutive from [z]; if the cursor is due at
    the first reading there is at least one. *)
Lemma run_steps (nows : list Q) :
  forall q z, 0 <= z ->
  exists fuel0 c' evs,
    (forall fuel, (fuel0 <= fuel)%nat ->
       run_ticks tick fuel (map Fin nows) (mk_cursor (Fin q) (Step z))
         = Some (c', evs)) /\
    emitted_steps evs = cycle_from n z (length (emitted_steps evs)) /\
    (forall now rest, nows = now :: rest -> (q < now + (1 # 10))%Q ->
       (1 <= length (emitted_steps evs))%nat).
Proof.
  induction nows as [| now rest IH]; intros q z Hz.
  - exists 0%nat, (mk_cursor (Fin q) (Step z)), []. repeat split.
    intros now rest Hnil. discriminate.
  - destruct (Htick now q z Hz) as (m & onsets & c1 & Hrun1 & Hlen & Hons & Hend & Hiff).
    destruct Hend as (q1 & -> & _).
    destruct (IH q1 (step_seq n z m)) as (fuel2 & c' & evs2 & Hrun2 & Hsteps2 & _).
    { by apply step_seq_nonneg. }
    exists (Nat.max (S m) fuel2), c',
      ((notes (note (Fin now)) onsets ++ [SetTimeout CbScheduler lookahead])
         ++ evs2).
    split; [| split].
    + intros fuel Hfuel. cbn [map run_ticks].
      rewrite Hrun1 by lia. rewrite Hrun2 by lia. reflexivity.
    + rewrite emitted_steps_app, emitted_notes, length_app, length_map, Hlen.
      rewrite cycle_from_app, <- Hsteps2. f_equal.
      rewrite <- Hlen. apply steps_of_onsets.
      intros k o Hk. destruct (Hons k o Hk) as (qk & -> & _). reflexivity.
    + intros now' rest' Heq Hdue. injection Heq as <- <-.
      rewrite emitted_steps_app, emitted_notes, length_app, length_map, Hlen.
      assert (0 < m)%nat; [| lia].
      apply Hiff. rewrite onset_time_0. exact Hdue.
Qed.

End RunSpec.

Lemma scheduleNote_step (r : refs) (now : num) (s : stepv) (t : num) :
  emitted_steps (scheduleNote r now s t) = [s].
Proof.
  unfold scheduleNote, play_if_active.
  destruct (active _ _), (active _ _), (active _ _); reflexivity.
Qed.

Lemma Legacy_scheduleNote_step (u : ui) (now : num) (s : stepv) (t : num) :
  emitted_steps (Legacy.scheduleNote u now s t) = [s].
Proof.
  unfold Legacy.scheduleNote, play_if_active.
  destruct (active _ _), (active _ _), (active _ _); reflexivity.
Qed.

Lemma cycle_from_0 (n : Z) (len : nat) :
  1 <= n ->
  cycle_from n 0 len = map (fun k => Step (Z.of_nat k mod n)) (seq 0 len).
Proof.
  intros Hn. unfold cycle_from. apply map_ext. intros k.
  by rewrite step_seq_from_0.
Qed.

Lemma cycle_lookup (n : Z) (len k : nat) (s : stepv) :
  map (fun k => Step (Z.of_nat k mod n)) (seq 0 len) !! k = Some s ->
  s = Step (Z.of_nat k mod n).
Proof.
  change (map ?f ?l) with (f <$> l).
  rewrite list_lookup_fmap. intros H.
  destruct (seq 0 len !! k) as [j |] eqn:E; [| discriminate].
  apply lookup_seq in E. destruct E as [-> _]. cbn in H. congruence.
Qed.

Lemma cycle_facts (n : Z) (steps : list stepv) :
  1 <= n ->
  steps = map (fun k => Step (Z.of_nat k mod n)) (seq 0 (length steps)) ->
  (forall k s, steps !! k = Some s -> exists z, s = Step z /\ 0 <= z < n) /\
  (forall k z z', steps !! k = Some (Step z) ->
     steps !! S k = Some (Step z') -> z' = (z + 1) mod n).
Proof.
  intros Hn Heq. split.
  - intros k s Hk. rewrite Heq in Hk. apply cycle_lookup in Hk.
    eexists. split; [exact Hk |]. apply Z.mod_pos_bound. lia.
  - intros k z z' Hk Hk'. rewrite Heq in Hk, Hk'.
    apply cycle_lookup in Hk, Hk'. injection Hk as ->. injection Hk' as ->.
    rewrite Nat2Z.inj_succ. unfold Z.succ.
    rewrite Zplus_mod_idemp_l. reflexivity.
Qed.

(** C2: from the start of playback (step 0, the cursor at the clock),
    through any number of scheduler calls at any finite clock readings,
    the step indices passed on are 0, 1, ..., n-1, 0, 1, ...: the [k]-th
    is [k mod n], so each lies in [0, n) and follows the one before by
    one modulo [n]; the first call passes at least one.  This holds for
    the scheduler of each of the three revisions. *)
Theorem C2_step_sequence (v : revision) (u : ui) (b t0 : Q) (later : list Q) :
  isPlaying u = true -> bpm u = BNum (Fin b) -> (0 < b)%Q ->
  0 < subdivision u -> 1 <= beatsPerCycle u ->
  exists fuel0 c' evs,
    (forall fuel, (fuel0 <= fuel)%nat ->
       run_ticks (scheduler_of v u) fuel (map Fin (t0 :: later))
                 (start_cursor (Fin t0)) = Some (c', evs)) /\
    emitted_steps evs =
      map (fun k => Step (Z.of_nat k mod beatsPerCycle u))
          (seq 0 (length (emitted_steps evs))) /\
    (1 <= length (emitted_steps evs))%nat /\
    (forall k s, emitted_steps evs !! k = Some s ->
       exists z, s = Step z /\ 0 <= z < beatsPerCycle u) /\
    (forall k z z', emitted_steps evs !! k = Some (Step z) ->
       emitted_steps evs !! S k = Some (Step z') ->
       z' = (z + 1) mod beatsPerCycle u).
Proof.
  intros Hplay Hbpm Hb Hsub Hn.
  assert (Hrun : exists sps note,
    (forall now q z, 0 <= z ->
       tick_spec (scheduler_of v u) note sps (beatsPerCycle u) now q z) /\
    (forall now s t, emitted_steps (note now s t) = [s])).
  { destruct v.
    - exists (60 / b)%Q, (Legacy.scheduleNote u). split.
      + intros now q z Hz. by apply Legacy_tick_spec.
      + apply Legacy_scheduleNote_step.
    - exists (60 / b)%Q, (scheduleNote (sync_refs u)). split.
      + intros now q z Hz. by apply (App_tick_spec (sync_refs u)).
      + apply scheduleNote_step.
    - exists (60 / b / inject_Z (subdivision u))%Q, (scheduleNote (sync_refs u)).
      split.
      + intros now q z Hz. by apply (Ext_tick_spec (sync_refs u)).
      + apply scheduleNote_step. }
  destruct Hrun as (sps & note & Htick & Hnote).
  destruct (run_steps _ note sps _ Hn Htick Hnote (t0 :: later) t0 0)
    as (fuel0 & c' & evs & Hall & Hsteps & Hfirst); [lia |].
  rewrite cycle_from_0 in Hsteps by exact Hn.
  exists fuel0, c', evs. split; [exact Hall |]. split; [exact Hsteps |].
  split; [| by apply cycle_facts].
  apply (Hfirst t0 later eq_refl). lra.
Qed.

Lemma C2_step_sequence_witness :
  exists fuel0 c' evs,
    (forall fuel, (fuel0 <= fuel)%nat ->
       run_ticks (scheduler_of Rev_ext (setIsPlaying true initial_ui)) fuel
                 (map Fin [0; 1 # 40; 1 # 2]%Q)
                 (start_cursor (Fin 0)) = Some (c', evs)) /\
    emitted_steps evs =
      map (fun k => Step (Z.of_nat k mod 4)) (seq 0 (length (emitted_steps evs))).
Proof.
  destruct (C2_step_sequence Rev_ext (setIsPlaying true initial_ui)
              120%Q 0%Q [1 # 40; 1 # 2]%Q)
    as (fuel0 & c' & evs & Hrun & Hsteps & _); try reflexivity; [cbn; lia |].
  exists fuel0, c', evs. split; [exact Hrun | exact Hsteps].
Defined.

(** A run of [src/app.js] at 120 BPM over seven steps of a four-step
    cycle. *)
Example run_example :
  option_map (fun p => emitted_steps (snd p))
    (run_ticks (scheduler_of Rev_app (setIsPlaying true initial_ui)) 4
       (map of_Z [0; 1; 2; 3]) (start_cursor (of_Z 0)))
  = Some [Step 0; Step 1; Step 2; Step 3; Step 0; Step 1; Step 2].
Proof. reflexivity. Qed.

(** * Further properties *)

(** ** Tap tempo *)

Lemma intervals_of_shift (d : Z) (l : list Z) :
  intervals_of (map (Z.add d) l) = intervals_of l.
Proof.
  induction l as [| a [| b rest] IH]; [reflexivity | reflexivity |].
  change (intervals_of (map (Z.add d) (a :: b :: rest)))
    with ((d + b - (d + a)) :: intervals_of (map (Z.add d) (b :: rest))).
  change (intervals_of (a :: b :: rest)) with ((b - a) :: intervals_of (b :: rest)).
  rewrite IH. f_equal. lia.
Qed.

Lemma tapBpm_shift (d : Z) (l : list Z) : tapBpm (map (Z.add d) l) = tapBpm l.
Proof. unfold tapBpm. rewrite intervals_of_shift. reflexivity. Qed.

Lemma timed_out_shift (d now : Z) (l : list Z) :
  timed_out (d + now) (map (Z.add d) l) <-> timed_out now l.
Proof.
  split.
  - intros (init & a & Heq & Hgap).
    destruct (exists_last (l := l)) as (init' & a' & ->).
    { intros ->. by destruct init. }
    rewrite map_app in Heq. cbn [map] in Heq.
    apply app_inj_tail in Heq. destruct Heq as [_ <-].
    exists init', a'. split; [reflexivity | lia].
  - intros (init & a & -> & Hgap).
    exists (map (Z.add d) init), (d + a). rewrite map_app. split; [reflexivity | lia].
Qed.

Lemma slide_shift (d now : Z) (l : list Z) :
  slide (map (Z.add d) l) (d + now) = map (Z.add d) (slide l now).
Proof.
  unfold slide. change [d + now] with (map (Z.add d) [now]).
  rewrite <- map_app, length_map.
  destruct (5 <? Z.of_nat (length (l ++ [now]))); [| reflexivity].
  by destruct (l ++ [now]).
Qed.

Lemma timed_out_dec (now : Z) (l : list Z) :
  {timed_out now l} + {~ timed_out now l}.
Proof.
  destruct ((0 <? Z.of_nat (length l)) && (3000 <? now - List.last l 0)) eqn:E.
  - left. by apply timed_out_test.
  - right. intros H. apply timed_out_test in H. congruence.
Qed.

Lemma handleTap_shift (d now : Z) (u : ui) :
  handleTap (d + now) (shift_taps d u) = shift_taps d (handleTap now u).
Proof.
  destruct (timed_out_dec now (tapTimes u)) as [Hout | Hlive].
  - rewrite (handleTap_timed_out now u Hout), handleTap_timed_out.
    + reflexivity.
    + by apply timed_out_shift.
  - rewrite (handleTap_live now u Hlive), handleTap_live.
    + cbn [shift_taps tapTimes setTapTimes].
      rewrite slide_shift, length_map, tapBpm_shift.
      by destruct (5 <=? Z.of_nat (length (slide (tapTimes u) now))).
    + cbn [shift_taps tapTimes setTapTimes]. by rewrite timed_out_shift.
Qed.

Lemma taps_shift (d : Z) (nows : list Z) (u : ui) :
  taps (map (Z.add d) nows) (shift_taps d u) = shift_taps d (taps nows u).
Proof.
  revert u. induction nows as [| now rest IH]; intros u; [reflexivity |].
  cbn [map taps fold_left]. rewrite handleTap_shift. apply IH.
Qed.

(** X1: the tap estimate does not depend on the absolute clock: moving
    every time stamp, past and new, by the same amount gives the same
    tempo and the same window moved by that amount. *)
Theorem X1_tap_shift_invariant (d : Z) (nows : list Z) (u : ui) :
  bpm (taps (map (Z.add d) nows) (shift_taps d u)) = bpm (taps nows u) /\
  tapTimes (taps (map (Z.add d) nows) (shift_taps d u))
    = map (Z.add d) (tapTimes (taps nows u)).
Proof. rewrite taps_shift. split; reflexivity. Qed.

Lemma handleTap_suffix (now : Z) (u : ui) :
  tapTimes (handleTap now u) `suffix_of` tapTimes u ++ [now].
Proof.
  destruct (handleTap_window now u) as [-> | ->].
  - by exists (tapTimes u).
  - unfold slide. destruct (5 <? Z.of_nat (length (tapTimes u ++ [now]))); [| done].
    destruct (tapTimes u ++ [now]) as [| a rest]; [done |].
    by exists [a].
Qed.

Lemma taps_suffix (nows : list Z) (u : ui) :
  tapTimes (taps nows u) `suffix_of` tapTimes u ++ nows.
Proof.
  revert u. induction nows as [| now rest IH]; intros u.
  - cbn. by rewrite app_nil_r.
  - cbn [taps fold_left]. etrans; [apply IH |].
    change (now :: rest) with ([now] ++ rest). rewrite app_assoc.
    apply suffix_app, handleTap_suffix.
Qed.

Lemma taps_snoc (nows : list Z) (now : Z) (u : ui) :
  taps (nows ++ [now]) u = handleTap now (taps nows u).
Proof. unfold taps. by rewrite fold_left_app. Qed.

(** X2: the window holds the most recent taps and nothing else: it is a
    suffix, in order, of the window it started from followed by the taps
    made since, and its last entry is the last tap. *)
Theorem X2_tap_window_is_recent (nows : list Z) (u : ui) :
  tapTimes (taps nows u) `suffix_of` tapTimes u ++ nows /\
  (forall earlier latest, nows = earlier ++ [latest] ->
     exists front, tapTimes (taps nows u) = front ++ [latest]).
Proof.
  split; [apply taps_suffix |].
  intros earlier latest ->. rewrite taps_snoc. apply handleTap_last.
Qed.

Lemma X2_tap_window_is_recent_witness :
  exists front,
    tapTimes (taps [0; 500; 1000; 1500; 2000; 2500] initial_ui) = front ++ [2500].
Proof.
  exact (proj2 (X2_tap_window_is_recent [0; 500; 1000; 1500; 2000; 2500] initial_ui)
               [0; 500; 1000; 1500; 2000] 2500 eq_refl).
Defined.

Lemma handleTap_short (now : Z) (u : ui) :
  (length (tapTimes (handleTap now u)) < 5)%nat -> bpm (handleTap now u) = bpm u.
Proof.
  unfold handleTap.
  destruct ((0 <? Z.of_nat (length (tapTimes u)))
            && (3000 <? now - List.last (tapTimes u) 0)); [reflexivity |].
  cbv zeta.
  set (newTaps := if 5 <? Z.of_nat (length (tapTimes u ++ [now]))
                  then List.tl (tapTimes u ++ [now]) else tapTimes u ++ [now]).
  cbn [tapTimes setTapTimes]. intros Hlen.
  destruct (5 <=? Z.of_nat (length newTaps)) eqn:E; [| reflexivity].
  apply Z.leb_le in E. lia.
Qed.

Lemma handleTap_grows_by_one (now : Z) (u : ui) :
  (length (tapTimes (handleTap now u)) <= length (tapTimes u) + 1)%nat.
Proof.
  destruct (handleTap_suffix now u) as [k Hk].
  apply (f_equal length) in Hk. rewrite !length_app in Hk. cbn in Hk. lia.
Qed.

Lemma taps_short (nows : list Z) (u : ui) :
  (length (tapTimes u) + length nows < 5)%nat ->
  bpm (taps nows u) = bpm u /\
  (length (tapTimes (taps nows u)) <= length (tapTimes u) + length nows)%nat.
Proof.
  revert u. induction nows as [| now rest IH]; intros u Hlen.
  - cbn. split; [reflexivity | lia].
  - cbn [taps fold_left length] in *.
    pose proof (handleTap_grows_by_one now u) as Hone.
    destruct (IH (handleTap now u)) as [Hbpm Hwin]; [lia |].
    fold (taps rest (handleTap now u)) in *. split.
    + rewrite Hbpm. apply handleTap_short. lia.
    + lia.
Qed.

(** X3: no estimate before the fifth entry.  While the window and the
    taps to come count fewer than five, no tap changes the tempo; so
    after a tap that timed out, the next three taps leave it alone,
    whenever they come. *)
Theorem X3_no_estimate_before_five :
  (forall nows u, (length (tapTimes u) + length nows < 5)%nat ->
     bpm (taps nows u) = bpm u) /\
  (forall now next3 u, timed_out now (tapTimes u) -> (length next3 <= 3)%nat ->
     bpm (taps (now :: next3) u) = bpm u).
Proof.
  split.
  - intros nows u H. by apply taps_short.
  - intros now next3 u Hout Hlen. cbn [taps fold_left].
    fold (taps next3 (handleTap now u)).
    destruct (taps_short next3 (handleTap now u)) as [-> _].
    + rewrite (handleTap_timed_out now u Hout). cbn. lia.
    + by rewrite (handleTap_timed_out now u Hout).
Qed.

Lemma X3_no_estimate_before_five_witness :
  bpm (taps [4000; 4500; 5000; 5500] (setTapTimes [0; 1; 2; 3] initial_ui))
    = BNum (of_Z 120).
Proof.
  apply (proj2 X3_no_estimate_before_five 4000 [4500; 5000; 5500]
               (setTapTimes [0; 1; 2; 3] initial_ui)).
  - exists [0; 1; 2], 3. split; [reflexivity | lia].
  - cbn. lia.
Defined.

Lemma not_timed_out_nil (now : Z) : ~ timed_out now [].
Proof. intros (init & a & Heq & _). by destruct init. Qed.

Lemma not_timed_out_last (now : Z) (init : list Z) (a : Z) :
  now - a <= 3000 -> ~ timed_out now (init ++ [a]).
Proof.
  intros Hgap (init' & a' & Heq & Hgap').
  apply app_inj_tail in Heq. destruct Heq as [_ <-]. lia.
Qed.

(** A tap that does not time out, on a window of fewer than four
    entries, and on a window of four. *)
Lemma handleTap_append (now : Z) (u : ui) :
  ~ timed_out now (tapTimes u) -> (length (tapTimes u) < 4)%nat ->
  handleTap now u = setTapTimes (tapTimes u ++ [now]) u.
Proof.
  intros Hlive Hlen. rewrite (handleTap_live now u Hlive).
  unfold slide. rewrite length_app. cbn [length].
  destruct (5 <? Z.of_nat (length (tapTimes u) + 1)) eqn:E1;
    [apply Z.ltb_lt in E1; lia |].
  rewrite length_app. cbn [length].
  destruct (5 <=? Z.of_nat (length (tapTimes u) + 1)) eqn:E2;
    [apply Z.leb_le in E2; lia | reflexivity].
Qed.

Lemma handleTap_fifth (now : Z) (u : ui) :
  ~ timed_out now (tapTimes u) -> length (tapTimes u) = 4%nat ->
  handleTap now u =
    setTapTimes (tapTimes u ++ [now])
                (setBpm (BNum (tapBpm (tapTimes u ++ [now]))) u).
Proof.
  intros Hlive Hlen. rewrite (handleTap_live now u Hlive).
  unfold slide. rewrite length_app, Hlen.
  change (5 <? Z.of_nat (4 + length [now])) with false. cbv iota.
  rewrite length_app, Hlen. reflexivity.
Qed.

Lemma round_half_up_even (d : Z) :
  0 < d ->
  round_half_up (60000 / (inject_Z (d + d + d + d) / 4)) = (120000 + d) / (2 * d).
Proof.
  intros Hd. unfold round_half_up.
  transitivity (Qfloor (60000 / inject_Z d + (1 # 2))).
  - apply Qfloor_comp.
    assert (Hq : (0 < inject_Z d)%Q).
    { change 0%Q with (inject_Z 0). rewrite <- Zlt_Qlt. exact Hd. }
    rewrite !inject_Z_plus. field. split; intros H; lra.
  - destruct d as [| p | p]; try lia.
    unfold Qfloor, Qdiv, Qmult, Qinv, Qplus, inject_Z. cbn [Qnum Qden].
    f_equal; lia.
Qed.

(** X4: five taps evenly spaced [d] ms apart, starting on an empty
    window, [d] at most three seconds: the window holds the five taps
    and the tempo is 60000 / d rounded to the nearest integer (halves
    up), clamped to [30, 250]. *)
Theorem X4_even_taps (t0 d : Z) (u : ui) :
  tapTimes u = [] -> 0 < d <= 3000 ->
  let five := [t0; t0 + d; t0 + 2 * d; t0 + 3 * d; t0 + 4 * d] in
  tapTimes (taps five u) = five /\
  bpm (taps five u) = BNum (of_Z (clamp_tempo ((120000 + d) / (2 * d)))).
Proof.
  intros Hempty Hd five. unfold five, taps. cbn [fold_left].
  rewrite (handleTap_append t0 u), Hempty;
    [| rewrite Hempty; apply not_timed_out_nil | rewrite Hempty; cbn; lia].
  cbn [app].
  rewrite (handleTap_append (t0 + d));
    [| apply (not_timed_out_last _ []); lia | cbn; lia].
  cbn [tapTimes setTapTimes app].
  rewrite (handleTap_append (t0 + 2 * d));
    [| apply (not_timed_out_last _ [t0]); lia | cbn; lia].
  cbn [tapTimes setTapTimes app].
  rewrite (handleTap_append (t0 + 3 * d));
    [| apply (not_timed_out_last _ [t0; t0 + d]); lia | cbn; lia].
  cbn [tapTimes setTapTimes app].
  rewrite (handleTap_fifth (t0 + 4 * d));
    [| apply (not_timed_out_last _ [t0; t0 + d; t0 + 2 * d]); lia | reflexivity].
  cbn [tapTimes setTapTimes setBpm bpm app]. split; [reflexivity |].
  rewrite tapBpm_five. cbv zeta.
  replace (t0 + d - t0) with d by lia.
  replace (t0 + 2 * d - (t0 + d)) with d by lia.
  replace (t0 + 3 * d - (t0 + 2 * d)) with d by lia.
  replace (t0 + 4 * d - (t0 + 3 * d)) with d by lia.
  destruct (d + d + d + d =? 0) eqn:E; [apply Z.eqb_eq in E; lia |].
  unfold spec_tap_tempo. rewrite round_half_up_even by lia. reflexivity.
Qed.

Lemma X4_even_taps_witness :
  bpm (taps [7; 407; 807; 1207; 1607] initial_ui) = BNum (of_Z 150).
Proof.
  apply (X4_even_taps 7 400 initial_ui eq_refl). lia.
Defined.

Lemma Qdiv_antitone (c a b : Q) : (0 <= c -> 0 < a -> a <= b -> c / b <= c / a)%Q.
Proof.
  intros Hc Ha Hab.
  apply Qle_shift_div_l; [exact Ha |].
  assert (H : c / b * a == c * a / b) by (field; lra).
  rewrite H. apply Qle_shift_div_r; [lra |].
  nra.
Qed.

Lemma tapBpm_five_span (t0 t1 t2 t3 t4 : Z) :
  tapBpm [t0; t1; t2; t3; t4] =
    if t4 - t0 =? 0 then of_Z MAX_BPM
    else of_Z (clamp_tempo (round_half_up (60000 / (inject_Z (t4 - t0) / 4)))).
Proof.
  rewrite tapBpm_five. cbv zeta. unfold spec_tap_tempo.
  replace (t1 - t0 + (t2 - t1) + (t3 - t2) + (t4 - t3)) with (t4 - t0) by lia.
  reflexivity.
Qed.

(** X5: when a tap leaves five entries in the window, the tempo it
    writes depends on nothing but the time between the first and the
    last entry, and a longer time never gives a higher tempo. *)
Theorem X5_tap_tempo_by_span (now now' : Z) (u u' : ui)
    (a0 a1 a2 a3 a4 b0 b1 b2 b3 b4 : Z) :
  tapTimes (handleTap now u) = [a0; a1; a2; a3; a4] ->
  tapTimes (handleTap now' u') = [b0; b1; b2; b3; b4] ->
  (a4 - a0 = b4 - b0 -> bpm (handleTap now u) = bpm (handleTap now' u')) /\
  (0 < a4 - a0 <= b4 - b0 ->
     exists za zb,
       bpm (handleTap now u) = BNum (of_Z za) /\
       bpm (handleTap now' u') = BNum (of_Z zb) /\ zb <= za).
Proof.
  intros Hwa Hwb.
  rewrite (handleTap_five _ _ _ _ _ _ _ Hwa), (handleTap_five _ _ _ _ _ _ _ Hwb).
  rewrite !tapBpm_five_span. split.
  - intros ->. reflexivity.
  - intros [Ha Hab].
    destruct (a4 - a0 =? 0) eqn:Ea; [apply Z.eqb_eq in Ea; lia |].
    destruct (b4 - b0 =? 0) eqn:Eb; [apply Z.eqb_eq in Eb; lia |].
    eexists _, _. split; [reflexivity |]. split; [reflexivity |].
    unfold clamp_tempo, round_half_up.
    assert (Hfl : Qfloor (60000 / (inject_Z (b4 - b0) / 4) + (1 # 2))
                  <= Qfloor (60000 / (inject_Z (a4 - a0) / 4) + (1 # 2))).
    { apply Qfloor_resp_le.
      assert (Hqa : (0 < inject_Z (a4 - a0))%Q).
      { change 0%Q with (inject_Z 0). rewrite <- Zlt_Qlt. exact Ha. }
      assert (Hqab : (inject_Z (a4 - a0) <= inject_Z (b4 - b0))%Q).
      { rewrite <- Zle_Qle. exact Hab. }
      pose proof (Qdiv_antitone 60000 (inject_Z (a4 - a0) / 4)
                                (inject_Z (b4 - b0) / 4)) as H.
      assert (Hda : (0 < inject_Z (a4 - a0) / 4)%Q)
        by (apply Qlt_shift_div_l; lra).
      assert (Hdab : (inject_Z (a4 - a0) / 4 <= inject_Z (b4 - b0) / 4)%Q).
      { apply Qle_shift_div_l; [lra |].
        assert (E : inject_Z (a4 - a0) / 4 * 4 == inject_Z (a4 - a0)) by field.
        rewrite E. exact Hqab. }
      specialize (H ltac:(lra) Hda Hdab). lra. }
    unfold MIN_BPM, MAX_BPM. lia.
Qed.

Lemma X5_tap_tempo_by_span_witness :
  bpm (handleTap 2000 (setTapTimes [0; 100; 900; 1000] initial_ui))
    = bpm (handleTap 2050 (setTapTimes [50; 550; 1050; 1550] initial_ui)).
Proof.
  apply (proj1 (X5_tap_tempo_by_span 2000 2050
                  (setTapTimes [0; 100; 900; 1000] initial_ui)
                  (setTapTimes [50; 550; 1050; 1550] initial_ui)
                  0 100 900 1000 2000 50 550 1050 1550 2050 eq_refl eq_refl)).
  reflexivity.
Defined.

(** ** The scheduler: lateness *)

Lemma tick_spec_of (v : revision) (u : ui) (b now q : Q) (z : Z) :
  isPlaying u = true -> bpm u = BNum (Fin b) -> (0 < b)%Q ->
  0 < subdivision u -> 1 <= beatsPerCycle u -> 0 <= z ->
  tick_spec (scheduler_of v u) (note_of v u) (seconds_per_step v u b)
            (beatsPerCycle u) now q z /\
  (0 < seconds_per_step v u b)%Q.
Proof.
  intros Hplay Hbpm Hb Hsub Hn Hz. destruct v; cbn [scheduler_of note_of seconds_per_step].
  - split; [by apply Legacy_tick_spec | apply Qlt_shift_div_l; lra].
  - split; [by apply (App_tick_spec (sync_refs u)) | apply Qlt_shift_div_l; lra].
  - split; [by apply (Ext_tick_spec (sync_refs u)) |].
    by apply secondsPerStep_value.
Qed.

Lemma visual_timeout_on_time (cb : callback) (now t : Q) :
  cb <> CbScheduler -> (now <= t < now + (1 # 10))%Q ->
  on_time now (visual_timeout cb (Fin now) (Fin t)).
Proof.
  intros Hcb Ht. rewrite visual_timeout_delay.
  set (d := Qred (Qred (t + - now) * 1000)).
  assert (Hd : d == (t - now) * 1000).
  { unfold d. rewrite !Qred_correct. reflexivity. }
  destruct (Qltb 0 d) eqn:E.
  - apply Qltb_lt in E. destruct cb; try congruence; cbn; lra.
  - destruct cb; try congruence; cbn; split; (reflexivity || discriminate).
Qed.

Lemma note_on_time (v : revision) (u : ui) (now t : Q) (s : stepv) :
  (now <= t < now + (1 # 10))%Q ->
  Forall (on_time now) (note_of v u (Fin now) s (Fin t)).
Proof.
  intros Ht.
  assert (Hplay : forall g w, Forall (on_time now) (play_if_active g w s (Fin t))).
  { intros g w. unfold play_if_active.
    destruct (active _ _); [| apply List.Forall_nil].
    apply List.Forall_cons; [exact Ht | apply List.Forall_nil]. }
  destruct v; cbn [note_of]; unfold scheduleNote, Legacy.scheduleNote;
    rewrite !Forall_app; repeat split; try apply Hplay;
    (apply List.Forall_cons; [| apply List.Forall_nil]); by apply visual_timeout_on_time.
Qed.

(** X6: no onset is scheduled late.  When a scheduler call finds the
    cursor at or after its clock, every renderer call it makes is for a
    time from the clock up to 0.1 s ahead, every step timer waits less
    than 100 ms, and the cursor it leaves is at least 0.1 s ahead of the
    clock; so a next call within 100 ms finds the cursor at or after its
    clock again.  For the scheduler of each revision. *)
Theorem X6_never_late (v : revision) (u : ui) (b now q : Q) (z : Z) :
  isPlaying u = true -> bpm u = BNum (Fin b) -> (0 < b)%Q ->
  0 < subdivision u -> 1 <= beatsPerCycle u -> 0 <= z ->
  (now <= q)%Q ->
  exists fuel0 q' s' evs,
    (forall fuel, (fuel0 <= fuel)%nat ->
       scheduler_of v u fuel (Fin now) (mk_cursor (Fin q) (Step z))
         = Some (mk_cursor (Fin q') s', evs)) /\
    Forall (on_time now) evs /\
    (now + (1 # 10) <= q')%Q.
Proof.
  intros Hplay Hbpm Hb Hsub Hn Hz Hq.
  destruct (tick_spec_of v u b now q z Hplay Hbpm Hb Hsub Hn Hz)
    as [(m & onsets & c' & Hrun & Hlen & Hons & Hend & Hiff) Hpos].
  destruct Hend as (q' & -> & Hq').
  exists (S m), q', (Step (step_seq (beatsPerCycle u) z m)),
    (notes (note_of v u (Fin now)) onsets ++ [SetTimeout CbScheduler lookahead]).
  split; [| split].
  - intros fuel Hfuel. apply Hrun. lia.
  - rewrite Forall_app. split; [| by repeat constructor].
    unfold notes. rewrite Forall_flat_map. apply Forall_forall.
    intros o Ho. apply (proj1 (list_elem_of_lookup _ _)) in Ho.
    destruct Ho as [k Hk].
    destruct (Hons k o Hk) as (qk & -> & Hqk). cbn [step nextNoteTime].
    apply note_on_time.
    assert (Hkm : (k < m)%nat).
    { rewrite <- Hlen. by eapply lookup_lt_Some. }
    apply Hiff in Hkm.
    pose proof (onset_time_ge q (seconds_per_step v u b) k Hpos). lra.
  - destruct (Qlt_le_dec q' (now + (1 # 10))) as [Hlt | Hge]; [| exact Hge].
    rewrite Hq' in Hlt. apply Hiff in Hlt. lia.
Qed.

Lemma X6_never_late_witness :
  exists fuel0 q' s' evs,
    (forall fuel, (fuel0 <= fuel)%nat ->
       scheduler_of Rev_ext (setIsPlaying true initial_ui) fuel (Fin 1)
                    (mk_cursor (Fin (21 # 20)) (Step 2))
         = Some (mk_cursor (Fin q') s', evs)) /\
    Forall (on_time 1) evs /\
    (1 + (1 # 10) <= q')%Q.
Proof.
  apply (X6_never_late Rev_ext (setIsPlaying true initial_ui) 120%Q 1%Q (21 # 20)%Q 2);
    try reflexivity; try (cbn; lia).
  unfold Qle. cbn. lia.
Defined.

(** ** The scheduler: what a run renders *)

Lemma note_sounds (v : revision) (u : ui) (now : num) (s : stepv) (t : num) :
  sounds (note_of v u now s t) = rendered (grid u) (mk_cursor t s).
Proof.
  unfold rendered, voices_in_order. cbn [List.filter step nextNoteTime].
  destruct v; cbn [note_of]; unfold scheduleNote, Legacy.scheduleNote,
    play_if_active; cbn [sync_refs gridRef];
    destruct (active (grid u) (grid_key (row_of hat) s)),
             (active (grid u) (grid_key (row_of snare) s)),
             (active (grid u) (grid_key (row_of kick) s)); reflexivity.
Qed.

Lemma note_step (v : revision) (u : ui) (now : num) (s : stepv) (t : num) :
  emitted_steps (note_of v u now s t) = [s].
Proof.
  destruct v; cbn [note_of];
    [apply Legacy_scheduleNote_step | apply scheduleNote_step ..].
Qed.

Lemma onset_time_add (q q1 sps : Q) (m j : nat) :
  q1 == onset_time q sps m ->
  onset_time q1 sps j == onset_time q sps (m + j).
Proof.
  intros H. unfold onset_time in *.
  rewrite H, Nat2Z.inj_add, inject_Z_plus. ring.
Qed.

Lemma step_seq_add (n z : Z) (m j : nat) :
  step_seq n (step_seq n z m) j = step_seq n z (m + j).
Proof. unfold step_seq. rewrite Nat.add_comm. symmetry. apply Nat.iter_add. Qed.

Section RunOnsets.
Variable tick : nat -> num -> cursor -> option (cursor * list event).
Variable note : num -> stepv -> num -> list event.
Variables (sps : Q) (n : Z) (g : gmap string bool).
Hypothesis Hn : 1 <= n.
Hypothesis Htick : forall now q z, 0 <= z -> tick_spec tick note sps n now q z.
Hypothesis Hsound : forall now s t, sounds (note now s t) = rendered g (mk_cursor t s).

Lemma sounds_notes (now : num) (onsets : list cursor) :
  sounds (notes (note now) onsets ++ [SetTimeout CbScheduler lookahead])
    = flat_map (rendered g) onsets.
Proof.
  unfold sounds at 1. rewrite omap_app. cbn [omap]. rewrite app_nil_r.
  induction onsets as [| o rest IH]; [reflexivity |].
  unfold notes in *. cbn [flat_map]. rewrite omap_app, IH.
  f_equal. fold (sounds (note now (step o) (nextNoteTime o))).
  rewrite Hsound. by destruct o.
Qed.

Lemma run_onsets (nows : list Q) :
  forall q z, 0 <= z ->
  exists fuel0 c' evs onsets,
    (forall fuel, (fuel0 <= fuel)%nat ->
       run_ticks tick fuel (map Fin nows) (mk_cursor (Fin q) (Step z))
         = Some (c', evs)) /\
    sounds evs = flat_map (rendered g) onsets /\
    (forall k o, onsets !! k = Some o ->
       cursor_is o (onset_time q sps k) (step_seq n z k)).
Proof.
  induction nows as [| now rest IH]; intros q z Hz.
  - exists 0%nat, (mk_cursor (Fin q) (Step z)), [], []. repeat split.
    intros k o Hk. by destruct k.
  - destruct (Htick now q z Hz) as (m & os1 & c1 & Hrun1 & Hlen & Hons & Hend & _).
    destruct Hend as (q1 & -> & Hq1).
    destruct (IH q1 (step_seq n z m)) as (fuel2 & c' & evs2 & os2 & Hrun2 & Hs2 & Hons2).
    { by apply step_seq_nonneg. }
    exists (Nat.max (S m) fuel2), c',
      ((notes (note (Fin now)) os1 ++ [SetTimeout CbScheduler lookahead]) ++ evs2),
      (os1 ++ os2).
    split; [| split].
    + intros fuel Hfuel. cbn [map run_ticks].
      rewrite Hrun1 by lia. rewrite Hrun2 by lia. reflexivity.
    + unfold sounds at 1. rewrite omap_app. fold (sounds evs2).
      fold (sounds (notes (note (Fin now)) os1 ++ [SetTimeout CbScheduler lookahead])).
      rewrite sounds_notes, Hs2, flat_map_app. reflexivity.
    + intros k o Hk. apply lookup_app_Some in Hk.
      destruct Hk as [Hk | [Hge Hk]]; [by apply Hons |].
      rewrite Hlen in Hge, Hk. remember (k - m)%nat as j eqn:Ej.
      assert (k = (m + j)%nat) as -> by lia.
      destruct (Hons2 _ _ Hk) as (qo & -> & Hqo).
      exists qo. split.
      * by rewrite step_seq_add.
      * rewrite Hqo. by apply onset_time_add.
Qed.

End RunOnsets.



(** ** The scheduler: tempo values outside the range *)

Lemma secondsPerStep_zero_tempo (r : refs) :
  to_number (bpmRef r) = of_Z 0 -> 0 <= subRef r ->
  App.secondsPerBeat r = PInf /\ Ext.secondsPerStep r = PInf.
Proof.
  intros Hb Hsub. unfold App.secondsPerBeat, Ext.secondsPerStep. rewrite Hb.
  split; [reflexivity |].
  change (Num.div (of_Z 60) (of_Z 0)) with PInf. unfold Num.div, of_Z.
  replace (Qle_bool 0 (inject_Z (subRef r))) with true; [reflexivity |].
  symmetry. apply Qle_bool_iff. change 0%Q with (inject_Z 0).
  rewrite <- Zle_Qle. exact Hsub.
Qed.

Lemma while_due_to_infinity (now q : Q) (z : stepv) (n : Z) (fuel : nat) :
  (q < now + (1 # 10))%Q ->
  while_due (Fin now) PInf n (S (S fuel)) (mk_cursor (Fin q) z)
    = Some (mk_cursor PInf (step_next z n), [mk_cursor (Fin q) z]).
Proof.
  intros Hq. cbn [while_due]. rewrite (proj2 (due_lt now q z) Hq). reflexivity.
Qed.

Lemma while_due_at_infinity (now sps : num) (z : stepv) (n : Z) (fuel : nat) :
  while_due now sps n (S fuel) (mk_cursor PInf z) = Some (mk_cursor PInf z, []).
Proof.
  cbn [while_due]. unfold due. cbn [nextNoteTime].
  replace (Num.lt PInf (Num.add now scheduleAheadTime)) with false; [reflexivity |].
  by destruct (Num.add now scheduleAheadTime).
Qed.



Lemma while_due_never_ends (now s : Q) (n : Z) (fuel : nat) :
  (s <= 0)%Q ->
  forall q z, (q < now + (1 # 10))%Q ->
    while_due (Fin now) (Fin s) n fuel (mk_cursor (Fin q) z) = None.
Proof.
  intros Hs. induction fuel as [| fuel IH]; intros q z Hq; [reflexivity |].
  cbn [while_due]. rewrite (proj2 (due_lt now q z) Hq).
  unfold advance. cbn [nextNoteTime step Num.add].
  rewrite IH; [reflexivity |]. rewrite Qred_correct. lra.
Qed.

Lemma secondsPerStep_negative_tempo (r : refs) (b : Q) :
  bpmRef r = BNum (Fin b) -> (b < 0)%Q -> 0 < subRef r ->
  exists sa se, App.secondsPerBeat r = Fin sa /\ Ext.secondsPerStep r = Fin se /\
                (sa <= 0)%Q /\ (se <= 0)%Q.
Proof.
  intros Hb Hneg Hsub. unfold App.secondsPerBeat, Ext.secondsPerStep.
  rewrite Hb. cbn [to_number].
  assert (Hnz : Qeq_bool b 0 = false).
  { destruct (Qeq_bool b 0) eqn:E; [| reflexivity]. apply Qeq_bool_iff in E. lra. }
  assert (Hs : (0 < inject_Z (subRef r))%Q).
  { change 0%Q with (inject_Z 0). rewrite <- Zlt_Qlt. exact Hsub. }
  assert (Hd : (60 / b < 0)%Q) by (apply Qdiv_pos_neg; [reflexivity | exact Hneg]).
  unfold Num.div at 1 3. cbn [of_Z]. rewrite Hnz.
  unfold Num.div, of_Z. rewrite (Qeq_bool_pos _ Hs).
  eexists _, _. split; [reflexivity |]. split; [reflexivity |].
  rewrite !Qred_correct. change (inject_Z 60) with 60%Q. split; [lra |].
  apply Qle_shift_div_r; lra.
Qed.

(** X9: a negative tempo read while playing never lets the scheduler
    return.  The entry box stores a negative integer as it is; then each
    step moves the cursor back, the cursor stays before the horizon and
    the loop has no exit: the call runs out of any fuel.  In
    [src/app.js] and [src/unnamed/part_001]. *)
Theorem X9_negative_tempo_hangs (r : refs) (b now q : Q) (z : stepv) (fuel : nat) :
  isPlayingRef r = true -> bpmRef r = BNum (Fin b) -> (b < 0)%Q ->
  0 < subRef r -> (q < now + (1 # 10))%Q ->
  App.scheduler r fuel (Fin now) (mk_cursor (Fin q) z) = None /\
  Ext.scheduler r fuel (Fin now) (mk_cursor (Fin q) z) = None.
Proof.
  intros Hplay Hb Hneg Hsub Hq.
  destruct (secondsPerStep_negative_tempo r b Hb Hneg Hsub)
    as (sa & se & Ha & He & Hsa & Hse).
  unfold App.scheduler, Ext.scheduler. rewrite Hplay, Ha, He.
  rewrite !while_due_never_ends by assumption. split; reflexivity.
Qed.

Lemma X9_negative_tempo_hangs_witness :
  App.scheduler (sync_refs (App.handleBpmChange "-5" (setIsPlaying true initial_ui)))
                1000 (of_Z 1) (mk_cursor (of_Z 1) (Step 2)) = None.
Proof.
  apply (X9_negative_tempo_hangs
           (sync_refs (App.handleBpmChange "-5" (setIsPlaying true initial_ui)))
           (-5)%Q 1%Q 1%Q (Step 2) 1000); reflexivity.
Defined.

(** ** Dial *)

Lemma Qltb_comp (x x' y y' : Q) : x == x' -> y == y' -> Qltb x y = Qltb x' y'.
Proof. intros Hx Hy. unfold Qltb. by rewrite (Qleb_comp _ _ Hy _ _ Hx). Qed.

Lemma round_clamp_finite (q : Q) :
  Num.round (clampBpm (Fin q)) = of_Z (clamp_tempo (round_half_up q)).
Proof.
  unfold clampBpm, Num.max. cbn [of_Z Num.lt].
  pose proof (Qfloor_resp_le q (q + (1 # 2))) as Hup.
  unfold clamp_tempo, round_half_up, MIN_BPM, MAX_BPM.
  destruct (Qltb q (inject_Z 30)) eqn:E1.
  - apply Qltb_lt in E1. change (inject_Z 30) with 30%Q in E1.
    pose proof (Qfloor_resp_le (q + (1 # 2)) (30 + (1 # 2))) as H.
    change (Qfloor (30 + (1 # 2))) with 30 in H.
    specialize (H ltac:(lra)).
    transitivity (of_Z 30); [reflexivity | f_equal; lia].
  - apply Qltb_ge in E1. change (inject_Z 30) with 30%Q in E1.
    pose proof (Qfloor_resp_le (30 + (1 # 2)) (q + (1 # 2))) as Hlo.
    change (Qfloor (30 + (1 # 2))) with 30 in Hlo. specialize (Hlo ltac:(lra)).
    unfold Num.min. cbn [of_Z Num.lt].
    destruct (Qltb (inject_Z 250) q) eqn:E2.
    + apply Qltb_lt in E2. change (inject_Z 250) with 250%Q in E2.
      pose proof (Qfloor_resp_le (250 + (1 # 2)) (q + (1 # 2))) as Hhi.
      change (Qfloor (250 + (1 # 2))) with 250 in Hhi. specialize (Hhi ltac:(lra)).
      transitivity (of_Z 250); [reflexivity | f_equal; lia].
    + apply Qltb_ge in E2. change (inject_Z 250) with 250%Q in E2.
      pose proof (Qfloor_resp_le (q + (1 # 2)) (250 + (1 # 2))) as Hhi.
      change (Qfloor (250 + (1 # 2))) with 250 in Hhi. specialize (Hhi ltac:(lra)).
      unfold Num.round, of_Z. do 2 f_equal. lia.
Qed.

Lemma clampBpm_comp (q q' : Q) :
  q == q' -> Num.round (clampBpm (Fin q)) = Num.round (clampBpm (Fin q')).
Proof.
  intros H. rewrite !round_clamp_finite. unfold round_half_up.
  do 2 f_equal. apply Qfloor_comp. by rewrite H.
Qed.

(** X10: dragging the dial from a numeric tempo [p] moves it by half of
    the pointer travel to the right minus the travel downwards, rounds
    to the nearest integer and stops at 30 and 250; both spellings of
    [updateBpmFromDelta] do so, and a pointer that has not moved leaves
    an integer tempo within the range where it is. *)
Theorem X10_dial_moves_by_half_travel (lx ly x y p : Q) (u : ui) :
  bpm u = BNum (Fin p) ->
  let moved :=
    BNum (of_Z (clamp_tempo (round_half_up (p + ((x - lx) - (y - ly)) * (1 # 2))))) in
  bpm (App.updateBpmFromDelta (Fin lx, Fin ly) (Fin x) (Fin y) u) = moved /\
  bpm (Ext.updateBpmFromDelta (Fin lx, Fin ly) (Fin x) (Fin y) u) = moved /\
  (forall z, p = inject_Z z -> MIN_BPM <= z <= MAX_BPM -> x - lx == y - ly ->
     moved = bpm u).
Proof.
  intros Hp moved.
  assert (Hext : bpm (Ext.updateBpmFromDelta (Fin lx, Fin ly) (Fin x) (Fin y) u) = moved).
  { unfold Ext.updateBpmFromDelta, pointer_change, dial_start. rewrite Hp.
    cbn [bpm setBpm is_empty to_number Num.isNaN orb fst snd
         Num.sub Num.neg Num.add Num.mul].
    unfold moved. f_equal. rewrite <- round_clamp_finite.
    apply clampBpm_comp. rewrite !Qred_correct. ring. }
  split; [by rewrite updateBpmFromDelta_same |]. split; [exact Hext |].
  intros z -> Hz Hxy. rewrite Hp. unfold moved. f_equal.
  change (Fin (inject_Z z)) with (of_Z z). f_equal.
  unfold clamp_tempo, round_half_up.
  assert (E : inject_Z z + (x - lx - (y - ly)) * (1 # 2) + (1 # 2)
              == inject_Z z + (1 # 2)) by (rewrite Hxy; ring).
  rewrite (Qfloor_comp _ _ E).
  assert (Hfl : Qfloor (inject_Z z + (1 # 2)) = z).
  { unfold Qfloor, inject_Z, Qplus, Qnum, Qden.
    change (Z.pos (1 * 2)) with 2.
    replace (z * 2 + 1 * 1) with (1 + z * 2) by lia.
    rewrite Z.div_add by lia. reflexivity. }
  rewrite Hfl. unfold MIN_BPM, MAX_BPM in *. lia.
Qed.

Lemma X10_dial_moves_by_half_travel_witness :
  bpm (App.updateBpmFromDelta (of_Z 10, of_Z 10) (of_Z 21) (of_Z 10) initial_ui)
    = BNum (of_Z 126).
Proof.
  exact (proj1 (X10_dial_moves_by_half_travel 10 10 21 10 120 initial_ui eq_refl)).
Defined.

Lemma dial_start_not_NaN (v : bpmval) : dial_start v <> NaN.
Proof. by destruct v as [| [q | | |]]. Qed.

Lemma clampBpm_bounds (n : num) :
  n <> NaN -> exists s, clampBpm n = Fin s /\ (30 <= s <= 250)%Q.
Proof.
  destruct n as [q | | |]; intros Hn; try congruence.
  - unfold clampBpm, Num.max. cbn [of_Z Num.lt].
    destruct (Qltb q (inject_Z MIN_BPM)) eqn:E1.
    + exists 30%Q. split; [reflexivity | lra].
    + unfold Num.min. cbn [of_Z Num.lt].
      destruct (Qltb (inject_Z MAX_BPM) q) eqn:E2.
      * exists 250%Q. split; [reflexivity | lra].
      * apply Qltb_ge in E1, E2. exists q. split; [reflexivity |].
        change (inject_Z MIN_BPM) with 30%Q in E1.
        change (inject_Z MAX_BPM) with 250%Q in E2. lra.
  - exists 250%Q. split; [reflexivity | lra].
  - exists 30%Q. split; [reflexivity | lra].
Qed.

(** X11: the dial angle is a number between -150 and 150 degrees for
    every tempo state, the empty box and numbers outside the range
    included: it is -150 plus 300/220 degrees for each BPM that the
    clamped tempo lies above 30. *)
Theorem X11_rotation_range (u : ui) :
  exists s a,
    clampBpm (dial_start (bpm u)) = Fin s /\ (30 <= s <= 250)%Q /\
    getRotation u = Fin a /\ a == -150 + (s - 30) * 300 / 220 /\
    (-150 <= a <= 150)%Q.
Proof.
  destruct (clampBpm_bounds _ (dial_start_not_NaN (bpm u))) as (s & Hs & Hrange).
  assert (Hrot : getRotation u =
    Fin (Qred (inject_Z (-150)
               + Qred (Qred (Qred (s + - inject_Z 30) / 220) * inject_Z 300)))).
  { unfold getRotation. rewrite Hs. reflexivity. }
  rewrite Hs, Hrot.
  eexists s, _. split; [reflexivity |]. split; [exact Hrange |].
  split; [reflexivity |].
  assert (Ha : Qred (inject_Z (-150)
                 + Qred (Qred (Qred (s + - inject_Z 30) / 220) * inject_Z 300))
               == -150 + (s - 30) * 300 / 220).
  { rewrite !Qred_correct.
    change (inject_Z 30) with 30%Q. change (inject_Z 300) with 300%Q.
    change (inject_Z (-150)) with (-150)%Q. field. }
  split; [exact Ha |]. rewrite Ha.
  assert (Hd : (s - 30) * 300 / 220 == (s - 30) * (15 # 11)) by field.
  rewrite Hd. lra.
Qed.

(** ** Leaving the entry box *)

(** X12: [handleBpmBlur] raises what is below 30 and touches nothing
    else.  It leaves a tempo that is a number (not [NaN]) and not below
    30; it does not change a numeric tempo of 30 or more, one above 250
    included; and applying it twice is applying it once. *)
Theorem X12_blur_floor :
  (forall u, exists n,
     bpm (handleBpmBlur u) = BNum n /\ n <> NaN /\ Num.lt n (of_Z MIN_BPM) = false) /\
  (forall u q, bpm u = BNum (Fin q) -> (30 <= q)%Q -> handleBpmBlur u = u) /\
  (forall u, handleBpmBlur (handleBpmBlur u) = handleBpmBlur u).
Proof.
  assert (Hfix : forall u n, bpm u = BNum n -> n <> NaN ->
            Num.lt n (of_Z MIN_BPM) = false -> handleBpmBlur u = u).
  { intros u n Hu Hn Hlt. unfold handleBpmBlur. rewrite Hu.
    cbn [is_empty to_number orb]. rewrite Hlt. by destruct n. }
  assert (Hres : forall u, exists n,
     bpm (handleBpmBlur u) = BNum n /\ n <> NaN /\ Num.lt n (of_Z MIN_BPM) = false).
  { intros u. unfold handleBpmBlur.
    destruct (bpm u) as [| n] eqn:Hu; cbn [is_empty to_number orb].
    - exists (of_Z MIN_BPM). by repeat split.
    - destruct (Num.isNaN n) eqn:Hnan; cbn [orb].
      + exists (of_Z MIN_BPM). by repeat split.
      + destruct (Num.lt n (of_Z MIN_BPM)) eqn:Hlt.
        * exists (of_Z MIN_BPM). by repeat split.
        * exists n. rewrite Hu. repeat split; [| exact Hlt]. by destruct n. }
  split; [exact Hres |]. split.
  - intros u q Hu Hq. apply (Hfix u (Fin q) Hu); [discriminate |].
    apply Qltb_ge. change (inject_Z MIN_BPM) with 30%Q. exact Hq.
  - intros u. destruct (Hres u) as (n & Hn & Hnan & Hlt). by apply (Hfix _ n).
Qed.

Lemma X12_blur_floor_witness :
  handleBpmBlur (setBpm (BNum (Fin 300)) initial_ui) = setBpm (BNum (Fin 300)) initial_ui.
Proof.
  apply (proj1 (proj2 X12_blur_floor) (setBpm (BNum (Fin 300)) initial_ui) 300%Q).
  - reflexivity.
  - unfold Qle. cbn. lia.
Defined.

(** ** Meter buttons *)

Lemma press_meter (b : spin) (u : ui) :
  (1 <= beatsPerCycle u <= 16 -> 1 <= beatsPerCycle (press b u) <= 16) /\
  (1 <= subdivision u <= 8 -> 1 <= subdivision (press b u) <= 8) /\
  bpm (press b u) = bpm u /\ grid (press b u) = grid u /\
  tapTimes (press b u) = tapTimes u /\ isPlaying (press b u) = isPlaying u.
Proof.
  destruct b; cbn; repeat split; lia.
Qed.

(** X13: the meter buttons keep the meter in its range: from a cycle
    length in 1..16 and a subdivision in 1..8 no sequence of presses
    leaves these ranges, and no press touches the tempo, the grid, the
    tap window or the playback state; in particular a cell beyond a
    shortened cycle keeps its status. *)
Theorem X13_meter_buttons (bs : list spin) (u : ui) :
  1 <= beatsPerCycle u <= 16 -> 1 <= subdivision u <= 8 ->
  let u' := fold_left (fun s b => press b s) bs u in
  1 <= beatsPerCycle u' <= 16 /\ 1 <= subdivision u' <= 8 /\
  bpm u' = bpm u /\ grid u' = grid u /\ tapTimes u' = tapTimes u /\
  isPlaying u' = isPlaying u.
Proof.
  revert u. induction bs as [| b rest IH]; intros u Hb Hs; cbn [fold_left].
  - repeat split; (lia || reflexivity).
  - destruct (press_meter b u) as (Hb' & Hs' & Hbpm & Hg & Ht & Hp).
    destruct (IH (press b u) (Hb' Hb) (Hs' Hs)) as (Hb2 & Hs2 & E1 & E2 & E3 & E4).
    repeat split; try lia; congruence.
Qed.

Lemma X13_meter_buttons_witness :
  1 <= beatsPerCycle (fold_left (fun s b => press b s)
                        [BeatsDown; BeatsDown; BeatsDown; BeatsDown; SubdivisionDown]
                        initial_ui) <= 16.
Proof.
  apply (X13_meter_buttons [BeatsDown; BeatsDown; BeatsDown; BeatsDown; SubdivisionDown]
                           initial_ui); cbn; lia.
Defined.

(** ** Grid editing *)

Lemma toggle_keys_commute (k1 k2 : string) (g : gmap string bool) :
  k1 <> k2 ->
  <[k1 := negb (active (<[k2 := negb (active g k2)]> g) k1)]>
    (<[k2 := negb (active g k2)]> g)
  = <[k2 := negb (active (<[k1 := negb (active g k1)]> g) k2)]>
      (<[k1 := negb (active g k1)]> g).
Proof.
  intros Hne. rewrite !active_insert.
  rewrite (decide_False (P := k2 = k1)) by congruence.
  rewrite (decide_False (P := k1 = k2)) by congruence.
  by apply insert_insert_ne.
Qed.

(** X14: edits of different cells do not interfere: toggling two
    different cells gives the same state in either order.  And a third
    toggle of a cell gives the very state the first one gave. *)
Theorem X14_toggles_commute (u : ui) (v1 v2 : voice) (c1 c2 : Z) :
  ((v1, c1) <> (v2, c2) ->
     toggleGridParams (row_of v1) c1 (toggleGridParams (row_of v2) c2 u)
     = toggleGridParams (row_of v2) c2 (toggleGridParams (row_of v1) c1 u)) /\
  toggleGridParams (row_of v1) c1
    (toggleGridParams (row_of v1) c1 (toggleGridParams (row_of v1) c1 u))
  = toggleGridParams (row_of v1) c1 u.
Proof.
  unfold toggleGridParams. fold (cell v1 c1) (cell v2 c2).
  cbn [grid setGrid]. split.
  - intros Hne. unfold setGrid. cbn. f_equal.
    apply toggle_keys_commute. intros Heq. apply cell_inj in Heq.
    destruct Heq as [-> ->]. congruence.
  - unfold setGrid. cbn. f_equal.
    rewrite !active_insert, !decide_True by reflexivity.
    rewrite !insert_insert_eq. by rewrite negb_involutive.
Qed.

Lemma X14_toggles_commute_witness :
  toggleGridParams (row_of hat) 1 (toggleGridParams (row_of kick) 3 initial_ui)
  = toggleGridParams (row_of kick) 3 (toggleGridParams (row_of hat) 1 initial_ui).
Proof.
  apply (proj1 (X14_toggles_commute initial_ui hat kick 1 3)). discriminate.
Defined.

(** ** Typing a number into the entry box *)

Lemma digit_value_char (d : N) :
  (d < 10)%N -> digit_value (pretty_N_char d) = Some (Z.of_N d) /\
                is_digit (pretty_N_char d) = true.
Proof.
  intros H.
  assert (d = 0 \/ d = 1 \/ d = 2 \/ d = 3 \/ d = 4 \/ d = 5 \/ d = 6 \/ d = 7
          \/ d = 8 \/ d = 9)%N as Hd by lia.
  repeat (destruct Hd as [-> | Hd]; [by split |]). subst d. by split.
Qed.

Lemma parseInt_digits (s : string) :
  s <> "" -> digits_only s = true ->
  parseInt s = option_map (Z.mul 1) (parse_digits 10 s None) /\
  parseInt (String "-" s) = option_map (Z.mul (-1)) (parse_digits 10 s None).
Proof.
  destruct s as [| c rest]; [done |]. intros _ Hd. cbn [digits_only] in Hd.
  apply andb_true_iff in Hd. destruct Hd as [Hc Hrest].
  destruct c as [[] [] [] [] [] [] [] []]; try discriminate Hc; clear Hc.
  all: try (split; reflexivity).
  all: destruct rest as [| c2 rest2]; [split; reflexivity |].
  all: cbn [digits_only] in Hrest; apply andb_true_iff in Hrest;
       destruct Hrest as [Hc2 _].
  all: destruct c2 as [[] [] [] [] [] [] [] []]; try discriminate Hc2;
       split; reflexivity.
Qed.

Lemma pretty_go_digits (x : N) :
  forall s, digits_only s = true -> digits_only (pretty_N_go x s) = true.
Proof.
  induction (N.lt_wf_0 x) as [x _ IH]. intros s Hs.
  assert (x = 0 \/ 0 < x)%N as [-> | Hx] by lia; [exact Hs |].
  rewrite pretty_N_go_step by exact Hx. apply IH.
  - by apply N.div_lt.
  - cbn [digits_only]. rewrite Hs.
    by rewrite (proj2 (digit_value_char (x mod 10) ltac:(by apply N.mod_lt))).
Qed.

Lemma pretty_go_nonempty (x : N) :
  forall s, s <> "" -> pretty_N_go x s <> "".
Proof.
  induction (N.lt_wf_0 x) as [x _ IH]. intros s Hs.
  assert (x = 0 \/ 0 < x)%N as [-> | Hx] by lia; [exact Hs |].
  rewrite pretty_N_go_step by exact Hx. apply IH; [by apply N.div_lt | done].
Qed.

Lemma parse_digit_step (d : N) (s : string) (acc : option Z) :
  (d < 10)%N ->
  parse_digits 10 (String (pretty_N_char d) s) acc
    = parse_digits 10 s (Some (10 * default 0 acc + Z.of_N d)).
Proof.
  intros Hd. cbn [parse_digits]. rewrite (proj1 (digit_value_char d Hd)).
  destruct (Z.of_N d <? 10) eqn:E; [reflexivity | apply Z.ltb_ge in E; lia].
Qed.

Lemma parse_pretty_go (x : N) :
  (0 < x)%N ->
  forall s acc, exists k : nat,
    parse_digits 10 (pretty_N_go x s) acc
      = parse_digits 10 s (Some (default 0 acc * 10 ^ Z.of_nat k + Z.of_N x)).
Proof.
  induction (N.lt_wf_0 x) as [x _ IH]. intros Hx s acc.
  rewrite pretty_N_go_step by exact Hx.
  pose proof (N.div_mod x 10 ltac:(lia)) as Hdm.
  pose proof (N.mod_lt x 10 ltac:(lia)) as Hm.
  assert (x / 10 = 0 \/ 0 < x / 10)%N as [Hq | Hq] by lia.
  - rewrite Hq, pretty_N_go_0, parse_digit_step by exact Hm.
    exists 1%nat. do 2 f_equal. change (10 ^ Z.of_nat 1) with 10.
    rewrite Hq, N.mul_0_r, N.add_0_l in Hdm. rewrite <- Hdm. lia.
  - destruct (IH (x / 10)%N (N.div_lt x 10 Hx eq_refl) Hq
                 (String (pretty_N_char (x mod 10)) s) acc) as [k Hk].
    rewrite Hk, parse_digit_step by exact Hm. cbn [default].
    exists (S k). do 2 f_equal.
    rewrite Nat2Z.inj_succ, Z.pow_succ_r by lia.
    assert (Hz : Z.of_N x = 10 * Z.of_N (x / 10) + Z.of_N (x mod 10)).
    { rewrite Hdm at 1. rewrite N2Z.inj_add, N2Z.inj_mul. reflexivity. }
    rewrite Hz. unfold id. ring.
Qed.

Lemma parseInt_pretty (z : Z) : parseInt (pretty z) = Some z.
Proof.
  assert (Hpos : forall p : positive,
            digits_only (pretty_N_go (N.pos p) "") = true /\
            pretty_N_go (N.pos p) "" <> "" /\
            parse_digits 10 (pretty_N_go (N.pos p) "") None = Some (Z.pos p)).
  { intros p. split; [by apply pretty_go_digits |]. split.
    - rewrite pretty_N_go_step by lia. by apply pretty_go_nonempty.
    - destruct (parse_pretty_go (N.pos p) ltac:(lia) "" None) as [k ->].
      cbn [parse_digits default]. f_equal. }
  destruct z as [| p | p]; [reflexivity | |].
  - destruct (Hpos p) as (Hd & Hne & Hp).
    change (pretty (Z.pos p)) with (pretty_N_go (N.pos p) "").
    rewrite (proj1 (parseInt_digits _ Hne Hd)), Hp. reflexivity.
  - destruct (Hpos p) as (Hd & Hne & Hp).
    change (pretty (Z.neg p)) with (String "-" (pretty_N_go (N.pos p) "")).
    rewrite (proj2 (parseInt_digits _ Hne Hd)), Hp. reflexivity.
Qed.


(** ** Presets *)

Lemma find_preset_app (id : string) (l l' : list preset) :
  find_preset id (l ++ l') =
    match find_preset id l with
    | Some p => Some p
    | None => find_preset id l'
    end.
Proof.
  unfold find_preset. induction l as [| a l IH]; [reflexivity |].
  cbn [app List.find]. by destruct (String.eqb (p_id a) id).
Qed.

Lemma find_preset_fresh (id : string) (l : list preset) :
  (forall p, In p l -> p_id p <> id) -> find_preset id l = None.
Proof.
  unfold find_preset. induction l as [| a l IH]; intros H; [reflexivity |].
  cbn [List.find]. destruct (String.eqb (p_id a) id) eqn:E.
  - apply String.eqb_eq in E. destruct (H a (or_introl eq_refl) E).
  - apply IH. intros p Hp. apply H. by right.
Qed.

(** X16: a preset that was stored can be loaded again.  Storing under a
    non-empty name appends a preset holding the tempo, cycle length and
    grid of the moment and selects it; if no older preset has the same
    id (the time stamp in decimal), selecting that id later brings these
    values back and stops playback.  If an older preset has the id,
    selecting it brings back the older one.  In [src/unnamed/part_001]
    the subdivision comes back as well. *)
Theorem X16_store_then_load (name : string) (stamp : Z) (st : library * ui)
    (later : ui) :
  name <> "" ->
  let stored := AppPresets.handleSavePreset name stamp st in
  let stored_ext := ExtPresets.handleSavePreset name stamp st in
  selectedPresetId (fst stored) = pretty stamp /\ snd stored = snd st /\
  selectedPresetId (fst stored_ext) = pretty stamp /\ snd stored_ext = snd st /\
  ((forall p, In p (presets (fst st)) -> p_id p <> pretty stamp) ->
     let back := AppPresets.handlePresetChange (pretty stamp) (fst stored, later) in
     let back_ext :=
       ExtPresets.handlePresetChange (pretty stamp) (fst stored_ext, later) in
     fst back = fst stored /\
     bpm (snd back) = bpm (snd st) /\
     beatsPerCycle (snd back) = beatsPerCycle (snd st) /\
     grid (snd back) = grid (snd st) /\
     isPlaying (snd back) = false /\
     fst back_ext = fst stored_ext /\
     bpm (snd back_ext) = bpm (snd st) /\
     beatsPerCycle (snd back_ext) = beatsPerCycle (snd st) /\
     grid (snd back_ext) = grid (snd st) /\
     isPlaying (snd back_ext) = false /\
     (subdivision (snd st) <> 0 ->
        subdivision (snd back_ext) = subdivision (snd st))) /\
  (forall older, find_preset (pretty stamp) (presets (fst st)) = Some older ->
     loaded older
       (snd (AppPresets.handlePresetChange (pretty stamp) (fst stored, later))) /\
     loaded_ext older
       (snd (ExtPresets.handlePresetChange (pretty stamp) (fst stored_ext, later)))).
Proof.
  intros Hname stored stored_ext.
  assert (E : String.eqb name "" = false).
  { destruct (String.eqb name "") eqn:E; [| reflexivity].
    by apply String.eqb_eq in E. }
  unfold stored, stored_ext, AppPresets.handleSavePreset, ExtPresets.handleSavePreset.
  rewrite E. cbv zeta. cbn [fst snd selectedPresetId presets p_id].
  split; [reflexivity |]. split; [reflexivity |].
  split; [reflexivity |]. split; [reflexivity |]. split.
  - intros Hfresh.
    unfold AppPresets.handlePresetChange, ExtPresets.handlePresetChange.
    cbn [fst snd presets]. rewrite !find_preset_app, (find_preset_fresh _ _ Hfresh).
    unfold find_preset. cbn [List.find p_id]. rewrite String.eqb_refl.
    cbn. repeat split.
    intros Hsub. destruct (subdivision (snd st) =? 0) eqn:E0; [| reflexivity].
    apply Z.eqb_eq in E0. congruence.
  - intros older Hold.
    unfold AppPresets.handlePresetChange, ExtPresets.handlePresetChange.
    cbn [fst snd presets]. rewrite !find_preset_app, Hold.
    by repeat split.
Qed.

Lemma X16_store_then_load_witness :
  bpm (snd (AppPresets.handlePresetChange (pretty 1700000000000)
         (fst (AppPresets.handleSavePreset "slow" 1700000000000
                 (mk_library [DEFAULT_PRESET] "default",
                  setBpm (BNum (of_Z 60)) initial_ui)),
          initial_ui)))
  = BNum (of_Z 60).
Proof.
  destruct (X16_store_then_load "slow" 1700000000000
              (mk_library [DEFAULT_PRESET] "default",
               setBpm (BNum (of_Z 60)) initial_ui)
              initial_ui) as (_ & _ & _ & _ & H & _); [discriminate |].
  apply H. intros p [<- | []]. discriminate.
Defined.

Lemma keep_others_In (sel : string) (l : list preset) (p : preset) :
  In p (List.filter (fun p => negb (String.eqb (p_id p) sel)) l)
  <-> In p l /\ p_id p <> sel.
Proof.
  rewrite filter_In, negb_true_iff. split; intros [Hin H]; split; try exact Hin.
  - intros Heq. apply String.eqb_eq in Heq. congruence.
  - destruct (String.eqb (p_id p) sel) eqn:E; [| reflexivity].
    apply String.eqb_eq in E. contradiction.
Qed.

Lemma keep_others_all (sel : string) (l : list preset) :
  (forall p, In p l -> p_id p <> sel) ->
  List.filter (fun p => negb (String.eqb (p_id p) sel)) l = l.
Proof.
  induction l as [| a l IH]; intros H; [reflexivity |]. cbn [List.filter].
  destruct (String.eqb (p_id a) sel) eqn:E.
  - apply String.eqb_eq in E. destruct (H a (or_introl eq_refl) E).
  - cbn [negb]. f_equal. apply IH. intros p Hp. apply H. by right.
Qed.

Lemma keep_others_none (sel : string) (l : list preset) :
  (forall p, In p l -> p_id p = sel) ->
  List.filter (fun p => negb (String.eqb (p_id p) sel)) l = [].
Proof.
  induction l as [| a l IH]; intros H; [reflexivity |]. cbn [List.filter].
  rewrite (H a (or_introl eq_refl)), String.eqb_refl. cbn [negb].
  apply IH. intros p Hp. apply H. by right.
Qed.

Lemma keep_others_length (sel : string) (l : list preset) :
  List.NoDup (map p_id l) ->
  (length l <= S (length (List.filter (fun p => negb (String.eqb (p_id p) sel)) l)))%nat.
Proof.
  induction l as [| a l IH]; intros Hnd; [cbn; lia |].
  cbn [map] in Hnd. apply List.NoDup_cons_iff in Hnd. destruct Hnd as [Hnot Hnd].
  cbn [List.filter]. destruct (String.eqb (p_id a) sel) eqn:E; cbn [negb length].
  - apply String.eqb_eq in E. rewrite keep_others_all; [lia |].
    intros p Hp Heq. apply Hnot. rewrite E, <- Heq. by apply in_map.
  - specialize (IH Hnd). lia.
Qed.

(** X17: deleting the selected preset.  With a single preset, or when
    the question is answered no, nothing changes.  With two or more
    presets of different ids the presets of other ids stay, at most
    one goes, the first that stays becomes the selected one and
    its tempo, cycle length and grid are loaded, while playback goes on.
    If every preset has the selected id none stays and [next.id] throws.
    In [src/unnamed/part_001] the subdivision is loaded too. *)
Theorem X17_delete_preset (st : library * ui) :
  (forall c, (length (presets (fst st)) <= 1)%nat ->
     AppPresets.handleDeletePreset c st = Some st /\
     ExtPresets.handleDeletePreset c st = Some st) /\
  (AppPresets.handleDeletePreset false st = Some st /\
   ExtPresets.handleDeletePreset false st = Some st) /\
  ((2 <= length (presets (fst st)))%nat ->
   List.NoDup (map p_id (presets (fst st))) ->
   exists next rest u' ue',
     AppPresets.handleDeletePreset true st
       = Some (mk_library (next :: rest) (p_id next), u') /\
     ExtPresets.handleDeletePreset true st
       = Some (mk_library (next :: rest) (p_id next), ue') /\
     (forall p, In p (next :: rest) <->
                In p (presets (fst st)) /\ p_id p <> selectedPresetId (fst st)) /\
     (length (presets (fst st)) <= S (length (next :: rest)))%nat /\
     loaded next u' /\ loaded_ext next ue' /\
     isPlaying u' = isPlaying (snd st) /\ isPlaying ue' = isPlaying (snd st)) /\
  ((2 <= length (presets (fst st)))%nat ->
   (forall p, In p (presets (fst st)) -> p_id p = selectedPresetId (fst st)) ->
   AppPresets.handleDeletePreset true st = None /\
   ExtPresets.handleDeletePreset true st = None).
Proof.
  unfold AppPresets.handleDeletePreset, ExtPresets.handleDeletePreset.
  set (l := presets (fst st)). set (sel := selectedPresetId (fst st)).
  split; [| split; [| split]].
  - intros c Hlen.
    destruct (Z.of_nat (length l) <=? 1) eqn:E; [by split |].
    apply Z.leb_gt in E. lia.
  - by destruct (Z.of_nat (length l) <=? 1).
  - intros Hlen Hnd.
    destruct (Z.of_nat (length l) <=? 1) eqn:E; [apply Z.leb_le in E; lia |].
    pose proof (keep_others_length sel l Hnd) as Hkeep.
    pose proof (keep_others_In sel l) as Hin.
    destruct (List.filter (fun p => negb (String.eqb (p_id p) sel)) l)
      as [| next rest]; [cbn in Hkeep; lia |].
    eexists next, rest, _, _. split; [reflexivity |]. split; [reflexivity |].
    split; [exact Hin |]. split; [exact Hkeep |]. by repeat split.
  - intros Hlen Hall.
    destruct (Z.of_nat (length l) <=? 1) eqn:E; [apply Z.leb_le in E; lia |].
    by rewrite (keep_others_none sel l Hall).
Qed.

Lemma X17_delete_preset_witness :
  let other := mk_preset "other" "Other" (BNum (of_Z 90)) 3 None ∅ in
  let st := (mk_library [DEFAULT_PRESET; other] "default", initial_ui) in
  (exists next rest u',
     AppPresets.handleDeletePreset true st
       = Some (mk_library (next :: rest) (p_id next), u') /\
     loaded next u')
  /\ AppPresets.handleDeletePreset true
       (mk_library [DEFAULT_PRESET; DEFAULT_PRESET] "default", initial_ui) = None.
Proof.
  intros other st. split.
  - destruct (proj1 (proj2 (proj2 (X17_delete_preset st))))
      as (next & rest & u' & ue' & H & _ & _ & _ & Hl & _).
    + cbn. lia.
    + repeat constructor; cbn; intuition discriminate.
    + by exists next, rest, u'.
  - apply (proj2 (proj2 (proj2 (X17_delete_preset
             (mk_library [DEFAULT_PRESET; DEFAULT_PRESET] "default", initial_ui))))).
    + cbn. lia.
    + intros p [<- | [<- | []]]; reflexivity.
Defined.
